(** * The constraint rule engine of src/entities/rule.ts and its overlap graph

    A shallow embedding of [Rule], of the incremental cluster rule
    [fastOverlap] with its module-level [layersGraph] and [areaCache], and of
    the naive cluster rule [isBufferOverlappingRecursive]; further of the
    rules against reference layers ([isOverlapping],
    [isOverlappingOrContained], [isInsideBoundaries],
    [isNotInsideBoundaries], [isBreakingSoundLimit]) and of what
    [MapEntityRepository] does with a response ([reload], [_update]).

    Modelling choices.
    - A JavaScript [number] holding an area is a rational ([Q]); sums are
      exact, so rounding errors of IEEE doubles are outside this model.
    - A leaflet id is an integer ([Z]).
    - [layersGraph] is a finite map from ids to finite sets of ids, and
      [areaCache] a finite map from ids to areas.  A [Set<number>] is a
      [gset Z]: loops over it run over [elements], whose order is fixed but
      is not JavaScript's insertion order.
    - Turf (the geometry oracle) and Leaflet are external: Turf's functions
      are parameters of the development, a Leaflet [LayerGroup] is the list
      of its layers in [eachLayer] order.
    - [throw] and the [TypeError] of reading a property of [undefined] are
      the [Throw] results of a state-and-exception monad: the store reached
      when the exception is raised is kept, as it is in the program.
    - The write-only counters [hasRunOnce] and [pik] and the logging calls
      ([print], [logg], [console.log]) have no effect on any result and are
      left out. *)

From stdpp Require Import gmap strings list fin_maps fin_sets pretty relations sorting.
From Stdlib Require Import QArith Qround.

#[local] Open Scope Z_scope.

(** ** Completions and the store monad *)

Inductive exn :=
  | Error (msg : string)
  | TypeError.

(** How a call ends: with a value, with an exception, or (for the two
    recursive traversals only) by using up the recursion budget. *)
Inductive completion (A : Type) :=
  | Normal (a : A)
  | Throw (e : exn)
  | OutOfFuel.
Arguments Normal {A} a.
Arguments Throw {A} e.
Arguments OutOfFuel {A}.

#[global] Instance completion_ret : MRet completion := @Normal.
#[global] Instance completion_bind : MBind completion := λ A B k m,
  match m with
  | Normal a => k a
  | Throw e => Throw e
  | OutOfFuel => OutOfFuel
  end.

(** [const layersGraph:{[id: number] : Set<number>;} = {}] and
    [const areaCache = {}]. *)
Record Store := mkStore {
  layersGraph : gmap Z (gset Z);
  areaCache : gmap Z Q
}.

Definition emptyStore : Store := mkStore ∅ ∅.

Definition M (A : Type) : Type := Store → Store * completion A.

#[global] Instance M_ret : MRet M := λ A a s, (s, Normal a).
#[global] Instance M_bind : MBind M := λ A B k m s,
  match m s with
  | (s', Normal a) => k a s'
  | (s', Throw e) => (s', Throw e)
  | (s', OutOfFuel) => (s', OutOfFuel)
  end.

Definition throw {A} (e : exn) : M A := λ s, (s, Throw e).
Definition liftC {A} (c : completion A) : M A := λ s, (s, c).
Definition getGraph : M (gmap Z (gset Z)) := λ s, (s, Normal (layersGraph s)).
Definition putGraph (g : gmap Z (gset Z)) : M unit :=
  λ s, (mkStore g (areaCache s), Normal tt).
Definition getCache : M (gmap Z Q) := λ s, (s, Normal (areaCache s)).
Definition putCache (c : gmap Z Q) : M unit :=
  λ s, (mkStore (layersGraph s) c, Normal tt).

(** [for (let x of xs) body(x)]. *)
Fixpoint forEach {A} (xs : list A) (body : A → M unit) : M unit :=
  match xs with
  | [] => mret tt
  | x :: rest => body x;; forEach rest body
  end.

(** ** GeoJSON values, layers and entities *)

(** What [layer.toGeoJSON()] returns, by its [type] tag.  [Geo] is what Turf
    takes as a polygon: a feature or a geometry. *)
Inductive GeoJSON (Geo : Type) :=
  | Feature (geometry : Geo)
  | FeatureCollection (features : list Geo)
  | OtherGeoJSON (type : string).
Arguments Feature {Geo} geometry.
Arguments FeatureCollection {Geo} features.
Arguments OtherGeoJSON {Geo} type.

(** A Leaflet layer as the rules use it.  [sublayerName] is the value of
    [layer._layers[Object.keys(layer._layers)[0]].feature.properties.name];
    it is [None] when that chain of property reads hits [undefined]. *)
Record Layer (Geo : Type) := mkLayer {
  _leaflet_id : Z;
  toGeoJSON : GeoJSON Geo;
  sublayerName : option string
}.
Arguments mkLayer {Geo} _ _ _.
Arguments _leaflet_id {Geo} _.
Arguments toGeoJSON {Geo} _.
Arguments sublayerName {Geo} _.

(** [entity.layer] and [entity.powerNeed] of a [MapEntity]. *)
Record MapEntity (Geo : Type) := mkEntity {
  layer : Layer Geo;
  powerNeed : Q
}.
Arguments mkEntity {Geo} _ _.
Arguments layer {Geo} _.
Arguments powerNeed {Geo} _.

(** ** Rule *)

(** [{ triggered: boolean, shortMessage?: string, message?: string }];
    an absent field is [None]. *)
Record RuleResult := mkResult {
  res_triggered : bool;
  res_shortMessage : option string;
  res_message : option string
}.

Record Rule (Geo : Type) := mkRule {
  _severity : Z;
  _triggered : bool;
  _callback : MapEntity Geo → M RuleResult;
  message : string;
  shortMessage : string
}.
Arguments mkRule {Geo} _ _ _ _ _.
Arguments _severity {Geo} _.
Arguments _triggered {Geo} _.
Arguments _callback {Geo} _.
Arguments message {Geo} _.
Arguments shortMessage {Geo} _.

(** [if (x) ...] on a value that is a string or [undefined]. *)
Definition truthy (x : option string) : bool :=
  match x with
  | None => false
  | Some s => negb (String.eqb s EmptyString)
  end.

(** [if (result.f) this.f = result.f]. *)
Definition assignIfTruthy (x : option string) (old : string) : string :=
  match x with
  | Some s => if truthy x then s else old
  | None => old
  end.

Section WithGeo.
Context {Geo : Type}.

(** [new Rule(severity, shortMessage, message, callback)]. *)
Definition newRule (severity : Z) (shortMsg msg : string)
    (callback : MapEntity Geo → M RuleResult) : Rule Geo :=
  mkRule severity false callback msg shortMsg.

(** [get severity()]. *)
Definition severity (r : Rule Geo) : Z :=
  if _triggered r then _severity r else 0.

(** [get triggered()]. *)
Definition triggered (r : Rule Geo) : bool := _triggered r.

(** [checkRule(entity)]: the rule object is updated in place; the updated
    rule is the value of the call.  When the callback throws, no field is
    assigned. *)
Definition checkRule (r : Rule Geo) (entity : MapEntity Geo) : M (Rule Geo) :=
  result ← _callback r entity;
  mret (mkRule (_severity r) (res_triggered result) (_callback r)
          (assignIfTruthy (res_message result) (message r))
          (assignIfTruthy (res_shortMessage result) (shortMessage r))).

End WithGeo.

(** ** Constants *)

Definition MAX_CLUSTER_SIZE : Q := 1250.
Definition MAX_POWER_NEED : Q := 8000.
Definition FIRE_BUFFER_IN_METER : Q := 5.

(** [x > y] on numbers. *)
Definition Qgtb (x y : Q) : bool := negb (Qle_bool x y).

(** [Math.round(x)]: the nearest integer, halves going up. *)
Definition Math_round (x : Q) : Z := Qfloor (x + (1 # 2)).

(** The decision both cluster rules end with:
    [if (totalArea > MAX_CLUSTER_SIZE) return {triggered: true, shortMessage:
    `Cluster too big: ${Math.round(totalArea).toString()}m²`};
    return {triggered: false};] *)
Definition clusterDecision (totalArea : Q) : RuleResult :=
  if Qgtb totalArea MAX_CLUSTER_SIZE
  then mkResult true
         (Some ("Cluster too big: " +:+ pretty (Math_round totalArea) +:+ "m²"))
         None
  else mkResult false None None.

(** ** The cluster rules, over the geometry oracle *)

Section Cluster.
Context {Geo : Type}.

(** Turf, the geometry oracle: [Turf.booleanOverlap], [Turf.buffer] with
    [{ units: 'meters' }], and [Turf.area]. *)
Variable turf_booleanOverlap : Geo → Geo → bool.
Variable turf_buffer : GeoJSON Geo → Q → GeoJSON Geo.
Variable turf_area : GeoJSON Geo → Q.

(** A Leaflet [LayerGroup], in [eachLayer] order. *)
Definition LayerGroup : Type := list (Layer Geo).

(** [layerGroup.getLayer(id)]; [None] is [undefined]. *)
Definition getLayer (layerGroup : LayerGroup) (id : Z) : option (Layer Geo) :=
  find (λ l, bool_decide (_leaflet_id l = id)) layerGroup.

Definition hasLargeEnergyNeed : Rule Geo :=
  newRule 1 "Powerful." "You need a lot of power, make sure its not a typo."
    (λ entity, mret (mkResult (Qgtb (powerNeed entity) MAX_POWER_NEED) None None)).

(** [layer1._leaflet_id === layer2._leaflet_id]. *)
Definition _compareLayers (layer1 layer2 : Layer Geo) : bool :=
  bool_decide (_leaflet_id layer1 = _leaflet_id layer2).

(** [getLayerPolygon]: the geometry of a feature, the first feature of a
    feature collection ([None] is the [undefined] read from an empty
    [features] array), an exception for any other [type]. *)
Definition getLayerPolygon (l : Layer Geo) : completion (option Geo) :=
  match toGeoJSON l with
  | Feature geometry => Normal (Some geometry)
  | FeatureCollection features => Normal (head features)
  | OtherGeoJSON _ => Throw (Error "Unsupported geometry type")
  end.

(** [buffer.features[0]]: reading index 0 of the [features] of a value that
    has none is a [TypeError]. *)
Definition features0 (buffer : GeoJSON Geo) : completion (option Geo) :=
  match buffer with
  | FeatureCollection features => Normal (head features)
  | _ => Throw TypeError
  end.

(** [Turf.booleanOverlap(a, b)]: Turf reads the [type] of both arguments, so
    an [undefined] argument is a [TypeError]. *)
Definition booleanOverlap (a b : option Geo) : completion bool :=
  match a, b with
  | Some x, Some y => Normal (turf_booleanOverlap x y)
  | _, _ => Throw TypeError
  end.

(** The [eachLayer] callback of [getOverlappingLayerIds], over the layers
    still to visit. *)
Fixpoint overlappingLoop (l : Layer Geo) (buffer : GeoJSON Geo)
    (others : list (Layer Geo)) (overlappingLayersIDs : gset Z)
    : completion (gset Z) :=
  match others with
  | [] => Normal overlappingLayersIDs
  | otherLayer :: rest =>
      if _compareLayers l otherLayer
      then overlappingLoop l buffer rest overlappingLayersIDs
      else
        otherLayerPolygon ← getLayerPolygon otherLayer;
        b ← features0 buffer;
        o ← booleanOverlap b otherLayerPolygon;
        overlappingLoop l buffer rest
          (if o : bool then {[_leaflet_id otherLayer]} ∪ overlappingLayersIDs
           else overlappingLayersIDs)
  end.

Definition getOverlappingLayerIds (l : Layer Geo) (layerGroup : LayerGroup)
    : completion (gset Z) :=
  overlappingLoop l (turf_buffer (toGeoJSON l) FIRE_BUFFER_IN_METER) layerGroup ∅.

(** [layersGraph[key].delete(x)] and [layersGraph[key].add(x)]: a
    [TypeError] when [layersGraph[key]] is [undefined]. *)
Definition setDelete (key x : Z) : M unit :=
  g ← getGraph;
  match g !! key with
  | Some X => putGraph (<[key := X ∖ {[x]}]> g)
  | None => throw TypeError
  end.

Definition setAdd (key x : Z) : M unit :=
  g ← getGraph;
  match g !! key with
  | Some X => putGraph (<[key := {[x]} ∪ X]> g)
  | None => throw TypeError
  end.

(** [if (!(id in layersGraph)) layersGraph[id] = new Set<number>()]. *)
Definition ensureEntry (id : Z) : M unit :=
  g ← getGraph;
  match g !! id with
  | Some _ => mret tt
  | None => putGraph (<[id := ∅]> g)
  end.

(** [Object.keys(layersGraph)], taken once before the loop that uses it. *)
Definition graphKeys : M (list Z) :=
  g ← getGraph; mret (elements (dom g)).

Definition deleteLayerFromCache (layerID : Z) : M unit :=
  c ← getCache;
  putCache (delete layerID c);;
  g ← getGraph;
  putGraph (delete layerID g);;
  keys ← graphKeys;
  forEach keys (λ id, setDelete id layerID).

Definition deleteFromAreaCache (layerGroup : LayerGroup) : M unit :=
  keys ← graphKeys;
  forEach keys (λ layerID,
    match getLayer layerGroup layerID with
    | None => deleteLayerFromCache layerID
    | Some _ => mret tt
    end).

Definition updateLayerGraph (layerID : Z) (connLayersIDs : gset Z) (del : bool)
    : M unit :=
  ensureEntry layerID;;
  g ← getGraph;
  prevConnLayersIDs ← liftC (from_option Normal (Throw TypeError) (g !! layerID));
  let idsToDelete : gset Z := filter (λ id, id ∉ connLayersIDs) prevConnLayersIDs in
  let idsToCreate : gset Z := filter (λ id, id ∉ prevConnLayersIDs) connLayersIDs in
  (if del
   then forEach (elements idsToDelete) (λ id,
          setDelete id layerID;; setDelete layerID id)
   else mret tt);;
  forEach (elements idsToCreate) (λ id,
    ensureEntry id;; setAdd id layerID;; setAdd layerID id).

(** [runOneTimeUpdateGraph] (its only call is commented out). *)
Definition runOneTimeUpdateGraph (layerGroup : LayerGroup) : M unit :=
  forEach layerGroup (λ l,
    overlappingLayersIDs ← liftC (getOverlappingLayerIds l layerGroup);
    updateLayerGraph (_leaflet_id l) overlappingLayersIDs false).

Definition getAreaFromCache (layerID : Z) (layerGroup : LayerGroup) : M Q :=
  c ← getCache;
  match c !! layerID with
  | Some a => mret a
  | None =>
      match getLayer layerGroup layerID with
      | Some l =>
          let a := turf_area (toGeoJSON l) in
          putCache (<[layerID := a]> c);; mret a
      | None => throw (Error "Layer not found")
      end
  end.

(** The [for (let otherLayerID of layersGraph[layerID])] loop of
    [_recursiveGetTotalArea]; [rec] is the recursive call.  The checked set
    is one shared object: each call gets it as the previous call left it. *)
Fixpoint totalAreaLoop (rec : Z → gset Z → M (Q * gset Z)) (ids : list Z)
    (totalArea : Q) (checkedLayerIDs : gset Z) : M (Q * gset Z) :=
  match ids with
  | [] => mret (totalArea, checkedLayerIDs)
  | otherLayerID :: rest =>
      '(a, checked') ← rec otherLayerID checkedLayerIDs;
      totalAreaLoop rec rest (totalArea + a)%Q checked'
  end.

(** [_recursiveGetTotalArea]; the value is the total with the checked set as
    the call leaves it. *)
Fixpoint _recursiveGetTotalArea (fuel : nat) (layerID : Z)
    (layerGroup : LayerGroup) (checkedLayerIDs : gset Z) : M (Q * gset Z) :=
  match fuel with
  | O => liftC OutOfFuel
  | S fuel' =>
      if bool_decide (layerID ∈ checkedLayerIDs)
      then mret (0%Q, checkedLayerIDs)
      else
        let checked := {[layerID]} ∪ checkedLayerIDs in
        totalArea ← getAreaFromCache layerID layerGroup;
        g ← getGraph;
        neighbours ← liftC (from_option Normal (Throw TypeError) (g !! layerID));
        totalAreaLoop (λ id c, _recursiveGetTotalArea fuel' id layerGroup c)
          (elements neighbours) totalArea checked
  end.

(** Every id that occurs in the graph, as a key or in a neighbour set. *)
Definition graphIds (g : gmap Z (gset Z)) : gset Z :=
  dom g ∪ ⋃ (map_to_list g).*2.

(** The read of [...feature.properties.name] on a layer. *)
Definition readName (l : Layer Geo) : M string :=
  liftC (from_option Normal (Throw TypeError) (sublayerName l)).

(** The callback of [fastOverlap], up to the value of its variable
    [totalArea]. *)
Definition fastOverlap_totalArea (layerGroup : LayerGroup)
    (entity : MapEntity Geo) : M Q :=
  let l := layer entity in
  readName l;;
  let layerID := _leaflet_id l in
  deleteFromAreaCache layerGroup;;
  forEach layerGroup (λ x, readName x;; mret tt);;
  overlappingLayersIDs ← liftC (getOverlappingLayerIds l layerGroup);
  updateLayerGraph layerID overlappingLayersIDs true;;
  g ← getGraph;
  '(totalArea, _) ← _recursiveGetTotalArea (S (size (graphIds g))) layerID layerGroup ∅;
  mret totalArea.

(** The callback of [fastOverlap]. *)
Definition fastOverlap_callback (layerGroup : LayerGroup)
    (entity : MapEntity Geo) : M RuleResult :=
  totalArea ← fastOverlap_totalArea layerGroup entity;
  mret (clusterDecision totalArea).

Definition fastOverlap (layerGroup : LayerGroup) (severity : Z)
    (shortMsg msg : string) : Rule Geo :=
  newRule severity shortMsg msg (fastOverlap_callback layerGroup).

(** The shape dispatch written out in [_getTotalAreaOfOverlappingEntities]:
    the outer [None] is its [return], which leaves the [eachLayer] callback
    for this layer. *)
Definition naivePolygon (j : GeoJSON Geo) : option (option Geo) :=
  match j with
  | Feature geometry => Some (Some geometry)
  | FeatureCollection features => Some (head features)
  | OtherGeoJSON _ => None
  end.

(** The [eachLayer] callback of [_getTotalAreaOfOverlappingEntities], over
    the layers still to visit. *)
Fixpoint naiveLoop (rec : Layer Geo → gset Z → completion (Q * gset Z))
    (l : Layer Geo) (buffer : GeoJSON Geo) (others : list (Layer Geo))
    (totalArea : Q) (checked : gset Z) : completion (Q * gset Z) :=
  match others with
  | [] => Normal (totalArea, checked)
  | otherLayer :: rest =>
      if _compareLayers l otherLayer
      then naiveLoop rec l buffer rest totalArea checked
      else
        match naivePolygon (toGeoJSON otherLayer) with
        | None => naiveLoop rec l buffer rest totalArea checked
        | Some otherLayerPolygon =>
            b ← features0 buffer;
            o ← booleanOverlap b otherLayerPolygon;
            if o : bool
            then
              '(a, checked') ← rec otherLayer checked;
              naiveLoop rec l buffer rest (totalArea + a)%Q checked'
            else naiveLoop rec l buffer rest totalArea checked
        end
  end.

Fixpoint _getTotalAreaOfOverlappingEntities (fuel : nat) (l : Layer Geo)
    (layerGroup : LayerGroup) (checkedOverlappingLayers : gset Z)
    : completion (Q * gset Z) :=
  match fuel with
  | O => OutOfFuel
  | S fuel' =>
      if bool_decide (_leaflet_id l ∈ checkedOverlappingLayers)
      then Normal (0%Q, checkedOverlappingLayers)
      else
        let checked := {[_leaflet_id l]} ∪ checkedOverlappingLayers in
        let totalArea := turf_area (toGeoJSON l) in
        let buffer := turf_buffer (toGeoJSON l) FIRE_BUFFER_IN_METER in
        naiveLoop (λ o c, _getTotalAreaOfOverlappingEntities fuel' o layerGroup c)
          l buffer layerGroup totalArea checked
  end.

(** The variable [totalArea] of the callback of
    [isBufferOverlappingRecursive]. *)
Definition naive_totalArea (layerGroup : LayerGroup) (entity : MapEntity Geo)
    : completion Q :=
  '(totalArea, _) ← _getTotalAreaOfOverlappingEntities
                      (S (S (length layerGroup))) (layer entity) layerGroup ∅;
  mret totalArea.

(** The callback of [isBufferOverlappingRecursive]. *)
Definition isBufferOverlappingRecursive_callback (layerGroup : LayerGroup)
    (entity : MapEntity Geo) : M RuleResult :=
  totalArea ← liftC (naive_totalArea layerGroup entity);
  mret (clusterDecision totalArea).

Definition isBufferOverlappingRecursive (layerGroup : LayerGroup) (severity : Z)
    (shortMsg msg : string) : Rule Geo :=
  newRule severity shortMsg msg (isBufferOverlappingRecursive_callback layerGroup).

(** ** States the program can be in *)

(** The stores reached from the empty module-level maps by evaluations of
    the incremental cluster rule, on any layer group and any entity, however
    each evaluation ends. *)
Inductive reachable : Store → Prop :=
  | reachable_init : reachable emptyStore
  | reachable_eval layerGroup entity s :
      reachable s → reachable (fastOverlap_callback layerGroup entity s).1.

(** The area [getAreaFromCache] answers with for an id: the cached one, or
    Turf's area of the id's layer when the cache has none. *)
Definition areaOf (layerGroup : LayerGroup) (c : gmap Z Q) (id : Z) : Q :=
  match c !! id with
  | Some a => a
  | None =>
      match getLayer layerGroup id with
      | Some l => turf_area (toGeoJSON l)
      | None => 0%Q
      end
  end.

(** The graph records, for every layer of the group, exactly the ids that
    neighbour discovery finds for it now. *)
Definition graph_in_sync (layerGroup : LayerGroup) (g : gmap Z (gset Z)) : Prop :=
  ∀ l, l ∈ layerGroup →
    getOverlappingLayerIds l layerGroup = Normal (default ∅ (g !! _leaflet_id l)).


(** Whether the buffer of a layer overlaps another layer, as both cluster
    rules test it, when the test raises no exception. *)
Definition overlapsBuffer (buffer : GeoJSON Geo) (otherLayer : Layer Geo) : bool :=
  match features0 buffer, naivePolygon (toGeoJSON otherLayer) with
  | Normal b, Some p =>
      match booleanOverlap b p with
      | Normal o => o
      | _ => false
      end
  | _, _ => false
  end.

(** The layers of a group that the buffered layer [l] overlaps, in
    [eachLayer] order. *)
Definition overlapped (l : Layer Geo) (layerGroup : LayerGroup) : list (Layer Geo) :=
  filter (λ o, _compareLayers l o = false ∧
               overlapsBuffer (turf_buffer (toGeoJSON l) FIRE_BUFFER_IN_METER) o = true)
    layerGroup.

End Cluster.

(** ** The overlap graph as a relation *)

(** [graph[a]], empty when [a] has no entry. *)
Definition neighbours (g : gmap Z (gset Z)) (a : Z) : gset Z :=
  default ∅ (g !! a).

Definition graph_symmetric (g : gmap Z (gset Z)) : Prop :=
  ∀ a b, a ∈ neighbours g b ↔ b ∈ neighbours g a.

(** What every evaluation keeps true of the store. *)
Definition store_inv (s : Store) : Prop :=
  graph_symmetric (layersGraph s) ∧ dom (areaCache s) ⊆ dom (layersGraph s).

(** The id has no cache entry, no graph entry, and is in no neighbour set. *)
Definition purged (x : Z) (s : Store) : Prop :=
  areaCache s !! x = None ∧ layersGraph s !! x = None ∧
  ∀ k X, layersGraph s !! k = Some X → x ∉ X.

(** The keys of the graph that the garbage collection purges. *)
Definition deadKeys {Geo} (layerGroup : list (Layer Geo)) (g : gmap Z (gset Z)) : gset Z :=
  filter (λ k, getLayer layerGroup k = None) (dom g).

(** The graph with the entries of the ids in [D] removed, and these ids
    removed from every remaining neighbour set. *)
Definition purgeGraph (D : gset Z) (g : gmap Z (gset Z)) : gmap Z (gset Z) :=
  (λ X, X ∖ D) <$> filter (λ kv, kv.1 ∉ D) g.

(** Edge replacement in the words of the specification: all edges of [E] are
    discarded ([E] leaves every neighbour set and its own set is emptied),
    then the edges to [N2] are inserted fresh: [E]'s set is [N2], and every
    id of [N2] gets [E] in its set, with an entry made when it has none. *)
Definition discardEdges (E : Z) (g : gmap Z (gset Z)) : gmap Z (gset Z) :=
  <[E := ∅]> ((λ X, X ∖ {[E]}) <$> g).

Definition insertFresh (E : Z) (N2 : gset Z) (g : gmap Z (gset Z))
    : gmap Z (gset Z) :=
  <[E := N2 ∪ neighbours g E]>
    (union_with (λ X Y, Some (X ∪ Y)) (gset_to_gmap {[E]} N2) g).

Definition replaceWholesale (E : Z) (N2 : gset Z) (g : gmap Z (gset Z))
    : gmap Z (gset Z) :=
  insertFresh E N2 (discardEdges E g).

(** ** Depth-first sums over an abstract graph *)

Definition sumList (l : list Q) : Q := foldr Qplus 0%Q l.

(** The sum of [w] over a finite set of ids. *)
Definition sumOver (w : Z → Q) (X : gset Z) : Q := sumList (w <$> elements X).

Fixpoint dfsLoop (rec : Z → gset Z → option (Q * gset Z)) (ids : list Z)
    (total : Q) (v : gset Z) : option (Q * gset Z) :=
  match ids with
  | [] => Some (total, v)
  | y :: rest =>
      '(a, v') ← rec y v;
      dfsLoop rec rest (total + a)%Q v'
  end.

(** The traversal both cluster rules perform, over successor lists [succ]
    and weights [w]. *)
Fixpoint dfs (succ : Z → list Z) (w : Z → Q) (fuel : nat) (x : Z) (v : gset Z)
    : option (Q * gset Z) :=
  match fuel with
  | O => None
  | S fuel' =>
      if bool_decide (x ∈ v) then Some (0%Q, v)
      else dfsLoop (dfs succ w fuel') (succ x) (w x) ({[x]} ∪ v)
  end.

(** ** A concrete oracle: plots along a street

    A polygon is a stretch [(lo, hi)] of a street one metre wide, in metres.
    Two stretches overlap when they share more than a point, the buffer
    lengthens a stretch at both ends, the area is the length. *)
Module Line.

Definition Seg : Type := Z * Z.

Definition overlap (a b : Seg) : bool := (a.1 <? b.2) && (b.1 <? a.2).

Definition grow (r : Q) (a : Seg) : Seg := (a.1 - Qfloor r, a.2 + Qfloor r).

Definition buffer (j : GeoJSON Seg) (r : Q) : GeoJSON Seg :=
  match j with
  | Feature a => Feature (grow r a)
  | FeatureCollection fs => FeatureCollection (grow r <$> fs)
  | OtherGeoJSON t => OtherGeoJSON t
  end.

Definition len (a : Seg) : Q := inject_Z (a.2 - a.1).

Definition area (j : GeoJSON Seg) : Q :=
  match j with
  | Feature a => len a
  | FeatureCollection fs => sumList (len <$> fs)
  | OtherGeoJSON _ => 0%Q
  end.

(** An entity layer as Leaflet builds it: a group of one polygon. *)
Definition plot (id lo hi : Z) : Layer Seg :=
  mkLayer id (FeatureCollection [(lo, hi)]) (Some "Camp").

Definition entityOf (l : Layer Seg) : MapEntity Seg := mkEntity l 0%Q.

Definition total (G : list (Layer Seg)) (l : Layer Seg) : M Q :=
  fastOverlap_totalArea overlap buffer area G (entityOf l).


(** Three plots in a row, 3 m apart: each is within the 5 m buffer of the
    next one only. *)
Definition rowA : Layer Seg := plot 1 0 500.
Definition rowB : Layer Seg := plot 2 503 1003.
Definition rowC : Layer Seg := plot 3 1006 1506.
Definition row : list (Layer Seg) := [rowA; rowB; rowC].

(** The scenario of two plots of 700 m² and 600 m², 3 m apart. *)
Definition campA : Layer Seg := plot 1 0 700.
Definition campB : Layer Seg := plot 2 703 1303.
Definition camps : list (Layer Seg) := [campA; campB].

(** A layer of two polygons: the first far away, the second 3 m from
    [campA]. *)
Definition twoFeatures : Layer Seg :=
  mkLayer 2 (FeatureCollection [(5000, 5100); (703, 1303)]) (Some "Camp").

(** A layer whose GeoJSON is neither a feature nor a feature collection. *)
Definition odd : Layer Seg :=
  mkLayer 2 (OtherGeoJSON "GeometryCollection") (Some "Camp").

(** A rule whose predicate supplies both messages as empty strings. *)
Definition blankRule : Rule Seg :=
  newRule 2 "Default short" "Default long"
    (λ _, mret (mkResult true (Some EmptyString) (Some EmptyString))).

End Line.

(** ** Definitions used to state the further properties *)

(** The ids of a list of keys that the garbage collection finds dead. *)
Definition deadOf {Geo} (G : list (Layer Geo)) (ks : list Z) : gset Z :=
  list_to_set (filter (λ k, getLayer G k = None) ks).

(** What the two loops of [updateLayerGraph] do to the neighbour set of [k]. *)
Definition dropEdges (E : Z) (ds : gset Z) (k : Z) (X : gset Z) : gset Z :=
  (X ∖ (if decide (k ∈ ds) then {[E]} else ∅)) ∖ (if decide (k = E) then ds else ∅).

Definition addEdges (E : Z) (cs : gset Z) (k : Z) (X : gset Z) : gset Z :=
  (if decide (k ∈ cs) then {[E]} else ∅) ∪ (if decide (k = E) then cs else ∅) ∪ X.

(** Every neighbour set lies inside the set of keys. *)
Definition graph_closed (g : gmap Z (gset Z)) : Prop :=
  ∀ k X, g !! k = Some X → X ⊆ dom g.

(** Every id of [U] has an entry, whose neighbours are in [U] again. *)
Definition closed_on (U : gset Z) (g : gmap Z (gset Z)) : Prop :=
  ∀ k, k ∈ U → ∃ X, g !! k = Some X ∧ X ⊆ U.

Section TraversalDefs.
Context {Geo : Type}.
Variable turf_area : GeoJSON Geo → Q.
Variable G : list (Layer Geo).
Implicit Types (s : Store) (g : gmap Z (gset Z)) (c : gmap Z Q).

(** [c'] is [c] with memoised areas of layers of the group added, for ids
    of [U] only. *)
Definition memo_ext (U : gset Z) c c' : Prop :=
  c ⊆ c' ∧
  ∀ y a, c' !! y = Some a → c !! y = None →
    y ∈ U ∧ ∃ l, getLayer G y = Some l ∧ a = turf_area (toGeoJSON l).

(** The successor lists the traversal follows. *)
Definition graphSucc (g : gmap Z (gset Z)) (y : Z) : list Z := elements (neighbours g y).

(** What a run of the traversal establishes, by how it ends. *)
Definition traversal_post (U : gset Z) g (w : Z → Q) (fuel : nat) (x : Z)
    (v : gset Z) s (out : Store * completion (Q * gset Z)) : Prop :=
  layersGraph out.1 = g ∧
  memo_ext U (areaCache s) (areaCache out.1) ∧
  match out.2 with
  | Normal (t, v') => dfs (graphSucc g) w fuel x v = Some (t, v') ∧ v ⊆ v'
  | Throw e =>
      e = Error "Layer not found" ∧
      ∃ y, rtc (λ a b, b ∈ neighbours g a) x y ∧
           areaCache s !! y = None ∧ getLayer G y = None
  | OutOfFuel => False
  end.

Definition loop_post (U : gset Z) g (w : Z → Q) (fuel : nat) (x : Z)
    (ids : list Z) (total : Q) (v : gset Z) s
    (out : Store * completion (Q * gset Z)) : Prop :=
  layersGraph out.1 = g ∧
  memo_ext U (areaCache s) (areaCache out.1) ∧
  match out.2 with
  | Normal (t, v') =>
      dfsLoop (dfs (graphSucc g) w fuel) ids total v = Some (t, v') ∧ v ⊆ v'
  | Throw e =>
      e = Error "Layer not found" ∧
      ∃ y, rtc (λ a b, b ∈ neighbours g a) x y ∧
           areaCache s !! y = None ∧ getLayer G y = None
  | OutOfFuel => False
  end.

End TraversalDefs.

(** The edge relation of successor lists. *)
Definition edge (succ : Z → list Z) (a b : Z) : Prop := b ∈ succ a.

(** What a depth-first run from [x] with checked set [v] leaves: the checked
    set only grows, holds [x], every id it gained has all its successors
    checked and can be reached from [x], and the total is the sum of the
    weights of the ids gained. *)
Definition dfs_post (succ : Z → list Z) (w : Z → Q) (U : gset Z) (x : Z)
    (v : gset Z) (t : Q) (v' : gset Z) : Prop :=
  v ⊆ v' ∧ x ∈ v' ∧ v' ⊆ v ∪ U ∧
  (∀ y, y ∈ v' → y ∉ v → ∀ z, z ∈ succ y → z ∈ v') ∧
  (∀ y, y ∈ v' → y ∉ v → rtc (edge succ) x y) ∧
  (t == sumOver w (v' ∖ v))%Q.

(** The store the garbage collection pass leaves. *)
Definition gcStore {Geo} (layerGroup : list (Layer Geo)) (s : Store) : Store :=
  mkStore (purgeGraph (deadKeys layerGroup (layersGraph s)) (layersGraph s))
    (filter (λ kv, kv.1 ∉ deadKeys layerGroup (layersGraph s)) (areaCache s)).

(** Every layer of the group has a first sublayer whose name can be read. *)
Definition namesReadable {Geo} (layerGroup : list (Layer Geo)) : bool :=
  forallb (λ x, bool_decide (is_Some (sublayerName x))) layerGroup.

(** The ids of the layers of a group. *)
Definition layerIds {Geo} (layerGroup : list (Layer Geo)) : gset Z :=
  list_to_set (_leaflet_id <$> layerGroup).

(** The store after the edge update of an evaluation that found [N]. *)
Definition updatedStore {Geo} (G : list (Layer Geo)) (entity : MapEntity Geo)
    (N : gset Z) (s : Store) : Store :=
  mkStore (replaceWholesale (_leaflet_id (layer entity)) N (layersGraph (gcStore G s)))
    (areaCache (gcStore G s)).

(** [y] is in the cluster of [x]: a path of recorded edges leads from [x]
    to [y]. *)
Definition connected (g : gmap Z (gset Z)) (x y : Z) : Prop :=
  rtc (λ a b, b ∈ neighbours g a) x y.

Section NaiveDefs.
Context {Geo : Type}.
Variable turf_booleanOverlap : Geo → Geo → bool.
Variable turf_buffer : GeoJSON Geo → Q → GeoJSON Geo.
Variable turf_area : GeoJSON Geo → Q.
Variable G : list (Layer Geo).

(** The ids the naive rule recurses into from the layer with id [id], in
    [eachLayer] order. *)
Definition naiveSucc (id : Z) : list Z :=
  match getLayer G id with
  | Some l => _leaflet_id <$> overlapped turf_booleanOverlap turf_buffer l G
  | None => []
  end.

(** The area the naive rule adds for the layer with id [id]. *)
Definition naiveArea (id : Z) : Q :=
  match getLayer G id with
  | Some l => turf_area (toGeoJSON l)
  | None => 0%Q
  end.

(** A traversal result of the abstract graph as a completion. *)
Definition liftDfs (r : option (Q * gset Z)) : completion (Q * gset Z) :=
  match r with
  | Some x => Normal x
  | None => OutOfFuel
  end.

(** Neighbour discovery ends normally for every layer of the group. *)
Definition discovery_ok : Prop :=
  ∀ l, l ∈ G → ∃ N, getOverlappingLayerIds turf_booleanOverlap turf_buffer l G = Normal N.

End NaiveDefs.

(** ** The rules against reference layers

    [isOverlapping], [isOverlappingOrContained], [isInsideBoundaries] and
    [isNotInsideBoundaries] test the entity's own GeoJSON
    ([entity.toGeoJSON()], a parameter here: class [MapEntity] is not part
    of the sources) against the layers of a reference group.  A layer value
    with a [features] array is walked feature by feature; any other value is
    handed to Turf whole: a feature through the same oracle, a value of
    another type through [turf_*_other], Turf's answer on it. *)
Section Catalog.
Context {Geo : Type}.
Variable turf_booleanOverlap : Geo → Geo → bool.
Variable turf_booleanContains : Geo → Geo → bool.
Variable turf_booleanOverlap_other : Geo → string → bool.
Variable turf_booleanContains_other : string → Geo → bool.
Variable entity_toGeoJSON : MapEntity Geo → Geo.







(** [Turf.booleanOverlap(geoJson, f) || Turf.booleanContains(f, geoJson)]. *)
Definition overlapsOrContained (geoJson f : Geo) : bool :=
  turf_booleanOverlap geoJson f || turf_booleanContains f geoJson.







End Catalog.

(** ** The sound limit rule

    [isBreakingSoundLimit] reads [properties.type] of a feature
    ([featureType], a parameter: the features are Turf's) and the entity's
    [amplifiedSound] ([None] is [undefined]). *)
Section SoundLimit.
Context {Geo : Type}.
Variable turf_booleanOverlap : Geo → Geo → bool.
Variable turf_booleanContains : Geo → Geo → bool.
Variable turf_booleanOverlap_other : Geo → string → bool.
Variable turf_booleanContains_other : string → Geo → bool.
Variable featureType : Geo → string.
Variable entity_toGeoJSON : MapEntity Geo → Geo.
Variable entity_amplifiedSound : MapEntity Geo → option Q.

(** The chain of [if (type == ... && entity.amplifiedSound > limit)] with the
    limits [limitQuiet = 10], [limitLow = 120], [limitMediumLow = 2000] and
    [limitMedium = 2000]: whether one of its branches is taken. *)
Definition exceedsLimit (type : string) (amplifiedSound : Q) : bool :=
  if String.eqb type "soundquiet" && Qgtb amplifiedSound 10 then true
  else if String.eqb type "soundlow" && Qgtb amplifiedSound 120 then true
  else if String.eqb type "soundmediumlow" && Qgtb amplifiedSound 2000 then true
  else if String.eqb type "soundmedium" && Qgtb amplifiedSound 2000 then true
  else false.

(** The feature loop of the callback: whether it is left by
    [overlap = true; return]. *)
Fixpoint soundFeaturesLoop (geoJson : Geo) (amplifiedSound : Q)
    (features : list Geo) : bool :=
  match features with
  | [] => false
  | f :: rest =>
      if overlapsOrContained turf_booleanOverlap turf_booleanContains geoJson f
         && exceedsLimit (featureType f) amplifiedSound
      then true
      else soundFeaturesLoop geoJson amplifiedSound rest
  end.

(** One call of the [eachLayer] callback, on the variable [overlap].  On a
    value that is neither a feature collection nor a feature, reading
    [otherGeoJson.properties.type] is a [TypeError]. *)
Definition soundCallback (geoJson : Geo) (amplifiedSound : Q) (overlap : bool)
    (l : Layer Geo) : completion bool :=
  match toGeoJSON l with
  | FeatureCollection features =>
      Normal (if soundFeaturesLoop geoJson amplifiedSound features then true
              else overlap)
  | Feature g =>
      Normal (if overlapsOrContained turf_booleanOverlap turf_booleanContains geoJson g
                 && exceedsLimit (featureType g) amplifiedSound
              then true else overlap)
  | OtherGeoJSON ty =>
      if turf_booleanOverlap_other geoJson ty || turf_booleanContains_other ty geoJson
      then Throw TypeError
      else Normal overlap
  end.

Fixpoint soundLoop (geoJson : Geo) (amplifiedSound : Q) (overlap : bool)
    (layers : list (Layer Geo)) : completion bool :=
  match layers with
  | [] => Normal overlap
  | l :: rest =>
      overlap' ← soundCallback geoJson amplifiedSound overlap l;
      soundLoop geoJson amplifiedSound overlap' rest
  end.

(** The callback of [isBreakingSoundLimit]. *)
Definition isBreakingSoundLimit_callback (layerGroup : list (Layer Geo))
    (entity : MapEntity Geo) : M RuleResult :=
  match entity_amplifiedSound entity with
  | None => mret (mkResult false None None)
  | Some amplifiedSound =>
      overlap ← liftC (soundLoop (entity_toGeoJSON entity) amplifiedSound false
                         layerGroup);
      mret (mkResult overlap None None)
  end.

Definition isBreakingSoundLimit (layerGroup : list (Layer Geo)) (severity : Z)
    (shortMsg msg : string) : Rule Geo :=
  newRule severity shortMsg msg (isBreakingSoundLimit_callback layerGroup).

End SoundLimit.

(** ** MapEntityRepository: what [reload] and [_update] do with a response

    The repository keeps the latest revision of every entity.  The network
    is outside the model: [reload] and [_update] are functions of the list
    of DTOs the request answered with (the empty list when the response is
    not [ok]).  Class [MapEntity] is not part of the sources: the entity
    built from a DTO ([new MapEntity(data, rules)]) and its [revision] are
    parameters.  Entity ids are array indices, so that the [for ... in]
    loops visit them in ascending order. *)

(** The fields of an [EntityDTO] that the repository reads. *)
Record EntityDTO := mkDTO {
  dto_id : Z;
  dto_revision : Z;
  dto_timeStamp : Z
}.

(** [EntityChanges]. *)
Record EntityChanges := mkChanges {
  refreshedDeleted : list Z;
  refreshedAdded : list Z;
  refreshedUpdated : list Z
}.

Section Repository.
Variable Ent : Type.
Variable newMapEntity : EntityDTO → Ent.
Variable revisionOf : Ent → Z.

(** [_latestRevisions] and [_entityConstraints] ([earliest], [latest]). *)
Record Repository := mkRepository {
  _latestRevisions : gmap Z Ent;
  _entityConstraints : option (Z * Z)
}.

(** The test that makes the fetch loops [continue]. *)
Definition outsideConstraints (constraints : option (Z * Z)) (data : EntityDTO) : bool :=
  match constraints with
  | None => false
  | Some (earliest, latest) =>
      bool_decide (latest < dto_timeStamp data) || bool_decide (dto_timeStamp data < earliest)
  end.

(** The loop [for (const data of entityDTOs)] that fills a map from ids to
    entities; a later DTO with the same id replaces an earlier one. *)
Definition collect (constraints : option (Z * Z)) (entityDTOs : list EntityDTO)
    : gmap Z Ent :=
  foldl (λ acc data,
           if outsideConstraints constraints data then acc
           else <[dto_id data := newMapEntity data]> acc)
    ∅ entityDTOs.

(** The keys of an object or array, in [for ... in] order. *)
Definition keysInOrder (m : gmap Z Ent) : list Z :=
  merge_sort Z.le (elements (dom m)).

(** [_update]: the stored revisions are replaced by the fetched ones. *)
Definition _update (entityDTOs : list EntityDTO) (r : Repository) : Repository :=
  mkRepository (collect (_entityConstraints r) entityDTOs) (_entityConstraints r).

(** The body of the loop over the fetched entities in [reload], on the
    stored revisions and the lists of added and of updated ids. *)
Definition reloadStep (fetchedEntities : gmap Z Ent)
    (st : gmap Z Ent * list Z * list Z) (fetchedId : Z)
    : gmap Z Ent * list Z * list Z :=
  let '(latest, added, updated) := st in
  match fetchedEntities !! fetchedId with
  | None => st
  | Some fetchedEntity =>
      match latest !! fetchedId with
      | Some old =>
          if bool_decide (revisionOf old < revisionOf fetchedEntity)
          then (<[fetchedId := fetchedEntity]> latest, added, updated ++ [fetchedId])
          else st
      | None => (<[fetchedId := fetchedEntity]> latest, added ++ [fetchedId], updated)
      end
  end.

(** [reload]. *)
Definition reload (entityDTOs : list EntityDTO) (r : Repository)
    : Repository * EntityChanges :=
  let fetchedEntities := collect (_entityConstraints r) entityDTOs in
  let deleted :=
    filter (λ oldEntityId, fetchedEntities !! oldEntityId = None)
      (keysInOrder (_latestRevisions r)) in
  let '(latest, added, updated) :=
    foldl (reloadStep fetchedEntities) (_latestRevisions r, [], [])
      (keysInOrder fetchedEntities) in
  (mkRepository latest (_entityConstraints r), mkChanges deleted added updated).

(** [remove] and the successful [deleteEntity]. *)
Definition removeEntity (id : Z) (r : Repository) : Repository :=
  mkRepository (delete id (_latestRevisions r)) (_entityConstraints r).

(** [getEntityById]. *)
Definition getEntityById (id : Z) (r : Repository) : option Ent :=
  _latestRevisions r !! id.

End Repository.
Arguments _latestRevisions {Ent} _.
Arguments _entityConstraints {Ent} _.
Arguments mkRepository {Ent} _ _.

(** ** Concrete scenes on the line *)

Module Scene.

Definition callback (G : list (Layer Line.Seg)) (l : Layer Line.Seg) : M RuleResult :=
  fastOverlap_callback Line.overlap Line.buffer Line.area G (Line.entityOf l).

(** The store once both camps have been evaluated. *)
Definition afterCamps : Store :=
  (callback Line.camps Line.campB (callback Line.camps Line.campA emptyStore).1).1.

(** The store once the middle plot of the row has been evaluated. *)
Definition afterRow : Store := (callback Line.row Line.rowB emptyStore).1.

(** A graph in which the three plots of the row are pairwise neighbours. *)
Definition triangle : Store :=
  mkStore {[ 1 := {[2; 3]}; 2 := {[1; 3]}; 3 := {[1; 2]} ]} ∅.

(** A graph in which plot 1 records a neighbour that has no entry. *)
Definition dangling : Store := mkStore {[ 1 := {[2]} ]} ∅.

(** A plot that is in no group. *)
Definition stray : Layer Line.Seg := Line.plot 9 0 700.

(** The cluster rule on the two camps. *)
Definition campRule : Rule Line.Seg :=
  fastOverlap Line.overlap Line.buffer Line.area Line.camps 3 "yo" "yooo".





(** A repository of two entities, and a response that lacks the first,
    has a newer revision of the second and adds a third. *)
Definition stored : Repository EntityDTO :=
  mkRepository {[ 1 := mkDTO 1 1 0; 2 := mkDTO 2 1 0 ]} None.

Definition response : list EntityDTO := [mkDTO 2 3 0; mkDTO 3 1 0].

End Scene.

(** * Properties *)

(** ** Rule.checkRule *)

Section RuleFacts.
Context {Geo : Type}.
Implicit Types (r : Rule Geo) (entity : MapEntity Geo) (s : Store).

Lemma assignIfTruthy_None old : assignIfTruthy None old = old.
Proof. reflexivity. Qed.

Lemma assignIfTruthy_empty old : assignIfTruthy (Some EmptyString) old = old.
Proof. reflexivity. Qed.

Lemma assignIfTruthy_changed x old :
  assignIfTruthy x old ≠ old → x = Some (assignIfTruthy x old).
Proof.
  destruct x as [t|]; simpl; [|congruence].
  destruct (String.eqb t EmptyString); simpl; congruence.
Qed.

Lemma assignIfTruthy_nonempty t old : t ≠ EmptyString → assignIfTruthy (Some t) old = t.
Proof.
  intros Hne. simpl. destruct (String.eqb_spec t EmptyString); [contradiction|reflexivity].
Qed.

Lemma checkRule_unfold r entity s :
  checkRule r entity s =
    match _callback r entity s with
    | (s', Normal result) =>
        (s', Normal (mkRule (_severity r) (res_triggered result) (_callback r)
                       (assignIfTruthy (res_message result) (message r))
                       (assignIfTruthy (res_shortMessage result) (shortMessage r))))
    | (s', Throw e) => (s', Throw e)
    | (s', OutOfFuel) => (s', OutOfFuel)
    end.
Proof.
  unfold checkRule, mbind, M_bind.
  destruct (_callback r entity s) as [s' [result|e|]]; reflexivity.
Qed.

(** C9. [checkRule] stores the predicate's [triggered]; [shortMessage] and
    [message] change only to a value the predicate result holds, and are
    kept when the result omits them (a non-empty supplied string is always
    stored); the severity and the predicate are never changed. *)
Theorem checkRule_frame r entity s s' result :
  _callback r entity s = (s', Normal result) →
  ∃ r', checkRule r entity s = (s', Normal r') ∧
    _triggered r' = res_triggered result ∧
    (res_shortMessage result = None → shortMessage r' = shortMessage r) ∧
    (res_message result = None → message r' = message r) ∧
    (shortMessage r' ≠ shortMessage r →
       res_shortMessage result = Some (shortMessage r')) ∧
    (message r' ≠ message r → res_message result = Some (message r')) ∧
    (∀ t, res_shortMessage result = Some t → t ≠ EmptyString → shortMessage r' = t) ∧
    (∀ t, res_message result = Some t → t ≠ EmptyString → message r' = t) ∧
    _severity r' = _severity r ∧ _callback r' = _callback r.
Proof.
  intros Hcb. rewrite checkRule_unfold, Hcb. eexists. split; [reflexivity|].
  simpl. repeat split.
  - intros ->. reflexivity.
  - intros ->. reflexivity.
  - apply assignIfTruthy_changed.
  - apply assignIfTruthy_changed.
  - intros t -> Hne. by apply assignIfTruthy_nonempty.
  - intros t -> Hne. by apply assignIfTruthy_nonempty.
Qed.

(** C10. Whether a supplied message is stored is decided by truthiness: a
    result whose [shortMessage] or [message] is the empty string leaves the
    stored text as it was, as a result without the field does. *)
Theorem checkRule_empty_string_kept r entity s s' result :
  _callback r entity s = (s', Normal result) →
  ∃ r', checkRule r entity s = (s', Normal r') ∧
    (res_shortMessage result = Some EmptyString → shortMessage r' = shortMessage r) ∧
    (res_message result = Some EmptyString → message r' = message r) ∧
    (res_shortMessage result = None → shortMessage r' = shortMessage r) ∧
    (res_message result = None → message r' = message r).
Proof.
  intros Hcb. rewrite checkRule_unfold, Hcb. eexists. split; [reflexivity|].
  simpl. repeat split; intros ->; reflexivity.
Qed.

(** A predicate that throws leaves every field of the rule as it was: the
    exception reaches the caller of [checkRule]. *)
Lemma checkRule_throw r entity s s' e :
  _callback r entity s = (s', Throw e) → checkRule r entity s = (s', Throw e).
Proof. intros Hcb. by rewrite checkRule_unfold, Hcb. Qed.

End RuleFacts.

Lemma checkRule_frame_witness :
  ∃ r', checkRule Line.blankRule (Line.entityOf Line.campA) emptyStore
          = (emptyStore, Normal r') ∧
    _triggered r' = true ∧
    (Some EmptyString = None → shortMessage r' = "Default short"%string) ∧
    (Some EmptyString = None → message r' = "Default long"%string) ∧
    (shortMessage r' ≠ "Default short"%string → Some EmptyString = Some (shortMessage r')) ∧
    (message r' ≠ "Default long"%string → Some EmptyString = Some (message r')) ∧
    (∀ t, Some EmptyString = Some t → t ≠ EmptyString → shortMessage r' = t) ∧
    (∀ t, Some EmptyString = Some t → t ≠ EmptyString → message r' = t) ∧
    _severity r' = 2 ∧ _callback r' = _callback Line.blankRule.
Proof.
  apply (checkRule_frame Line.blankRule (Line.entityOf Line.campA) emptyStore
           emptyStore (mkResult true (Some EmptyString) (Some EmptyString))).
  reflexivity.
Defined.

Lemma checkRule_empty_string_kept_witness :
  ∃ r', checkRule Line.blankRule (Line.entityOf Line.campA) emptyStore
          = (emptyStore, Normal r') ∧
    (Some EmptyString = Some EmptyString → shortMessage r' = "Default short"%string) ∧
    (Some EmptyString = Some EmptyString → message r' = "Default long"%string) ∧
    (Some EmptyString = None → shortMessage r' = "Default short"%string) ∧
    (Some EmptyString = None → message r' = "Default long"%string).
Proof.
  apply (checkRule_empty_string_kept Line.blankRule (Line.entityOf Line.campA)
           emptyStore emptyStore (mkResult true (Some EmptyString) (Some EmptyString))).
  reflexivity.
Defined.

(** * Further properties of the code *)

Set Default Proof Using "Type".

Lemma M_bind_unfold {A B} (m : M A) (k : A → M B) s :
  (m ≫= k) s =
    match m s with
    | (s', Normal a) => k a s'
    | (s', Throw e) => (s', Throw e)
    | (s', OutOfFuel) => (s', OutOfFuel)
    end.
Proof. reflexivity. Qed.

Lemma run_getGraph {B} (k : gmap Z (gset Z) → M B) s :
  (getGraph ≫= k) s = k (layersGraph s) s.
Proof. reflexivity. Qed.

Lemma run_putGraph {B} g' (k : unit → M B) s :
  (putGraph g' ≫= k) s = k tt (mkStore g' (areaCache s)).
Proof. reflexivity. Qed.

Lemma run_getCache {B} (k : gmap Z Q → M B) s :
  (getCache ≫= k) s = k (areaCache s) s.
Proof. reflexivity. Qed.

Lemma run_putCache {B} c' (k : unit → M B) s :
  (putCache c' ≫= k) s = k tt (mkStore (layersGraph s) c').
Proof. reflexivity. Qed.

Lemma run_graphKeys {B} (k : list Z → M B) s :
  (graphKeys ≫= k) s = k (elements (dom (layersGraph s))) s.
Proof. reflexivity. Qed.

Lemma run_mret {A B} (a : A) (k : A → M B) s : (mret a ≫= k) s = k a s.
Proof. reflexivity. Qed.

Lemma run_liftC_Normal {A B} (a : A) (k : A → M B) s : (liftC (Normal a) ≫= k) s = k a s.
Proof. reflexivity. Qed.

Lemma run_liftC_Throw {A B} e (k : A → M B) s :
  (liftC (Throw e) ≫= k) s = (s, Throw e).
Proof. reflexivity. Qed.

Lemma run_throw {A B} e (k : A → M B) s : (throw e ≫= k) s = (s, Throw e).
Proof. reflexivity. Qed.

Lemma run_assoc {A B C} (m : M A) (k : A → M B) (h : B → M C) s :
  ((m ≫= k) ≫= h) s = (m ≫= λ a, k a ≫= h) s.
Proof.
  rewrite !M_bind_unfold. destruct (m s) as [s' [a|e|]]; reflexivity.
Qed.

Create Rewrite HintDb mrun.
#[export] Hint Rewrite @run_getGraph @run_putGraph @run_getCache @run_putCache
  @run_graphKeys @run_mret @run_liftC_Normal @run_liftC_Throw @run_throw : mrun.

Ltac mrun := repeat (autorewrite with mrun; cbn [layersGraph areaCache]).

Section GraphFacts.
Implicit Types (s : Store) (g : gmap Z (gset Z)) (c : gmap Z Q).

Lemma setDelete_Some key x s X :
  layersGraph s !! key = Some X →
  setDelete key x s = (mkStore (<[key := X ∖ {[x]}]> (layersGraph s)) (areaCache s), Normal tt).
Proof. intros H. unfold setDelete. mrun. rewrite H. reflexivity. Qed.

Lemma setDelete_None key x s :
  layersGraph s !! key = None → setDelete key x s = (s, Throw TypeError).
Proof. intros H. unfold setDelete. mrun. rewrite H. reflexivity. Qed.

Lemma setAdd_Some key x s X :
  layersGraph s !! key = Some X →
  setAdd key x s = (mkStore (<[key := {[x]} ∪ X]> (layersGraph s)) (areaCache s), Normal tt).
Proof. intros H. unfold setAdd. mrun. rewrite H. reflexivity. Qed.

Lemma ensureEntry_spec id s :
  ensureEntry id s =
    (mkStore (<[id := neighbours (layersGraph s) id]> (layersGraph s)) (areaCache s), Normal tt).
Proof.
  unfold ensureEntry, neighbours. mrun.
  destruct (layersGraph s !! id) as [X|] eqn:E; simpl.
  - rewrite insert_id by done. by destruct s.
  - reflexivity.
Qed.

Lemma purgeLoop_spec x ks : ∀ s,
  (∀ k, k ∈ ks → is_Some (layersGraph s !! k)) →
  ∃ g', forEach ks (λ id, setDelete id x) s = (mkStore g' (areaCache s), Normal tt) ∧
        ∀ k, g' !! k = (λ X, if decide (k ∈ ks) then X ∖ {[x]} else X) <$> layersGraph s !! k.
Proof.
  induction ks as [|k0 ks IH]; intros s Hks.
  - exists (layersGraph s). split; [by destruct s|].
    intros k. by destruct (layersGraph s !! k).
  - destruct (Hks k0) as [X HX]; [set_solver|].
    simpl. rewrite M_bind_unfold, (setDelete_Some _ _ _ _ HX).
    destruct (IH (mkStore (<[k0 := X ∖ {[x]}]> (layersGraph s)) (areaCache s))) as (g' & Hrun & Hg').
    { intros k Hk. simpl. destruct (decide (k0 = k)) as [->|Hne].
      - rewrite lookup_insert_eq. eauto.
      - rewrite lookup_insert_ne by done. apply Hks. set_solver. }
    exists g'. split; [exact Hrun|].
    intros k. rewrite Hg'. simpl.
    destruct (decide (k0 = k)) as [->|Hne].
    + rewrite lookup_insert_eq, HX. simpl. f_equal.
      rewrite (decide_True (P := k ∈ k :: ks)) by set_solver.
      case_decide; set_solver.
    + rewrite lookup_insert_ne by done.
      destruct (layersGraph s !! k); simpl; [|done]. f_equal.
      repeat case_decide; set_solver.
Qed.

Lemma deleteLayerFromCache_spec x s :
  deleteLayerFromCache x s =
    (mkStore ((λ X, X ∖ {[x]}) <$> delete x (layersGraph s)) (delete x (areaCache s)), Normal tt).
Proof.
  unfold deleteLayerFromCache. mrun.
  destruct (purgeLoop_spec x (elements (dom (delete x (layersGraph s))))
              (mkStore (delete x (layersGraph s)) (delete x (areaCache s)))) as (g' & Hrun & Hg').
  { intros k Hk. simpl. apply elem_of_dom. set_solver. }
  simpl in *. rewrite Hrun. f_equal. f_equal.
  apply map_eq. intros k. rewrite Hg', lookup_fmap.
  destruct (delete x (layersGraph s) !! k) eqn:E; simpl; [|done].
  rewrite decide_True; [done|]. apply elem_of_elements, elem_of_dom. eauto.
Qed.

Lemma lookup_purgeGraph D g k :
  purgeGraph D g !! k = if decide (k ∈ D) then None else (λ X, X ∖ D) <$> g !! k.
Proof.
  unfold purgeGraph. rewrite lookup_fmap, map_lookup_filter.
  destruct (g !! k) as [X|]; simpl; [|by destruct (decide (k ∈ D))].
  destruct (decide (k ∈ D)).
  - by rewrite option_guard_False by auto.
  - by rewrite option_guard_True.
Qed.

Lemma lookup_filter_keys {A} (D : gset Z) (c : gmap Z A) k :
  filter (λ kv, kv.1 ∉ D) c !! k = if decide (k ∈ D) then None else c !! k.
Proof.
  rewrite map_lookup_filter.
  destruct (c !! k) as [a|]; simpl; [|by destruct (decide (k ∈ D))].
  destruct (decide (k ∈ D)).
  - by rewrite option_guard_False by auto.
  - by rewrite option_guard_True.
Qed.

Context {Geo : Type}.
Implicit Types (G : list (Layer Geo)).

Lemma deadOf_cons_dead G k0 ks :
  getLayer G k0 = None → deadOf G (k0 :: ks) = {[k0]} ∪ deadOf G ks.
Proof. intros H. unfold deadOf. rewrite filter_cons, decide_True by done. done. Qed.

Lemma deadOf_cons_live G k0 ks l :
  getLayer G k0 = Some l → deadOf G (k0 :: ks) = deadOf G ks.
Proof.
  intros H. unfold deadOf. rewrite filter_cons, decide_False by congruence. done.
Qed.

Lemma gcLoop_spec G ks : ∀ s,
  forEach ks (λ layerID,
      match getLayer G layerID with
      | None => deleteLayerFromCache layerID
      | Some _ => mret tt
      end) s
  = (mkStore (purgeGraph (deadOf G ks) (layersGraph s))
       (filter (λ kv, kv.1 ∉ deadOf G ks) (areaCache s)), Normal tt).
Proof.
  induction ks as [|k0 ks IH]; intros s.
  - simpl. unfold mret, M_ret. f_equal. destruct s as [g c]. simpl. f_equal.
    + apply map_eq. intros k. rewrite lookup_purgeGraph.
      rewrite decide_False by set_solver.
      destruct (g !! k) as [X|]; simpl; [|done]. f_equal. set_solver.
    + apply map_eq. intros k. rewrite lookup_filter_keys.
      by rewrite decide_False by set_solver.
  - cbn [forEach].
    destruct (getLayer G k0) as [l|] eqn:Hl.
    + rewrite (deadOf_cons_live _ _ _ _ Hl). mrun. apply IH.
    + rewrite (deadOf_cons_dead _ _ _ Hl).
      rewrite M_bind_unfold, deleteLayerFromCache_spec, IH. cbn [layersGraph areaCache].
      f_equal. f_equal.
      * apply map_eq. intros k. rewrite !lookup_purgeGraph, lookup_fmap.
        destruct (decide (k = k0)) as [->|Hne].
        -- rewrite lookup_delete_eq. simpl.
           rewrite (decide_True (P := k0 ∈ {[k0]} ∪ _)) by set_solver.
           by destruct (decide (k0 ∈ deadOf G ks)).
        -- rewrite lookup_delete_ne by done.
           destruct (decide (k ∈ deadOf G ks)) as [Hin|Hnin].
           ++ by rewrite decide_True by set_solver.
           ++ rewrite decide_False by set_solver.
              destruct (layersGraph s !! k) as [X|]; simpl; [|done]. f_equal. set_solver.
      * apply map_eq. intros k. rewrite !lookup_filter_keys.
        destruct (decide (k = k0)) as [->|Hne].
        -- rewrite lookup_delete_eq.
           rewrite (decide_True (P := k0 ∈ {[k0]} ∪ _)) by set_solver.
           by destruct (decide (k0 ∈ deadOf G ks)).
        -- rewrite lookup_delete_ne by done.
           destruct (decide (k ∈ deadOf G ks)) as [Hin|Hnin].
           ++ by rewrite decide_True by set_solver.
           ++ by rewrite decide_False by set_solver.
Qed.

Lemma deleteFromAreaCache_spec G s :
  deleteFromAreaCache G s
  = (mkStore (purgeGraph (deadKeys G (layersGraph s)) (layersGraph s))
       (filter (λ kv, kv.1 ∉ deadKeys G (layersGraph s)) (areaCache s)), Normal tt).
Proof.
  unfold deleteFromAreaCache. mrun. rewrite gcLoop_spec.
  assert (deadOf G (elements (dom (layersGraph s))) = deadKeys G (layersGraph s)) as ->; [|done].
  apply set_eq. intros k. unfold deadOf, deadKeys.
  rewrite elem_of_list_to_set, list_elem_of_filter, elem_of_filter, elem_of_elements. done.
Qed.

End GraphFacts.

Section UpdateFacts.
Implicit Types (s : Store) (g : gmap Z (gset Z)) (c : gmap Z Q).


Lemma deleteLoop_spec E ds : ∀ s,
  is_Some (layersGraph s !! E) →
  (∀ k, k ∈ ds → is_Some (layersGraph s !! k)) →
  ∃ g', forEach ds (λ id, setDelete id E;; setDelete E id) s
          = (mkStore g' (areaCache s), Normal tt) ∧
        ∀ k, g' !! k = dropEdges E (list_to_set ds) k <$> layersGraph s !! k.
Proof.
  induction ds as [|d ds IH]; intros s HE Hds.
  - exists (layersGraph s). split; [by destruct s|].
    intros k. destruct (layersGraph s !! k) as [X|]; simpl; [|done].
    f_equal. unfold dropEdges. repeat case_decide; set_solver.
  - destruct (Hds d) as [Xd HXd]; [set_solver|].
    cbn [forEach]. rewrite run_assoc, M_bind_unfold, (setDelete_Some _ _ _ _ HXd).
    set (s1 := mkStore (<[d := Xd ∖ {[E]}]> (layersGraph s)) (areaCache s)).
    assert (is_Some (layersGraph s1 !! E)) as [XE HXE].
    { simpl. destruct (decide (d = E)) as [->|]; [rewrite lookup_insert_eq|rewrite lookup_insert_ne]; eauto. }
    rewrite M_bind_unfold, (setDelete_Some _ _ _ _ HXE).
    set (s2 := mkStore (<[E := XE ∖ {[d]}]> (layersGraph s1)) (areaCache s1)).
    destruct (IH s2) as (g' & Hrun & Hg').
    { simpl. rewrite lookup_insert_eq. eauto. }
    { intros k Hk. simpl.
      destruct (decide (E = k)) as [->|]; [rewrite lookup_insert_eq; eauto|rewrite lookup_insert_ne by done].
      destruct (decide (d = k)) as [->|]; [rewrite lookup_insert_eq; eauto|rewrite lookup_insert_ne by done].
      apply Hds. set_solver. }
    exists g'. split; [exact Hrun|].
    intros k. rewrite Hg'. subst s2 s1. simpl in *.
    destruct (decide (E = k)) as [->|HEk].
    + rewrite lookup_insert_eq. simpl.
      destruct (decide (d = k)) as [->|Hdk].
      * rewrite lookup_insert_eq in HXE. injection HXE as <-. rewrite HXd. simpl. f_equal.
        unfold dropEdges. repeat case_decide; set_solver.
      * rewrite lookup_insert_ne in HXE by done. rewrite HXE. simpl. f_equal.
        unfold dropEdges. repeat case_decide; set_solver.
    + rewrite lookup_insert_ne by done.
      destruct (decide (d = k)) as [->|Hdk].
      * rewrite lookup_insert_eq, HXd. simpl. f_equal.
        unfold dropEdges. repeat case_decide; set_solver.
      * rewrite lookup_insert_ne by done.
        destruct (layersGraph s !! k) as [X|]; simpl; [|done]. f_equal.
        unfold dropEdges. repeat case_decide; set_solver.
Qed.

Lemma createLoop_spec E cs : ∀ s,
  is_Some (layersGraph s !! E) →
  ∃ g', forEach cs (λ id, ensureEntry id;; setAdd id E;; setAdd E id) s
          = (mkStore g' (areaCache s), Normal tt) ∧
        ∀ k, g' !! k =
          if decide (k ∈ cs)
          then Some (addEdges E (list_to_set cs) k (neighbours (layersGraph s) k))
          else addEdges E (list_to_set cs) k <$> layersGraph s !! k.
Proof.
  induction cs as [|d cs IH]; intros s HE.
  - exists (layersGraph s). split; [by destruct s|].
    intros k. rewrite decide_False by set_solver.
    destruct (layersGraph s !! k) as [X|]; simpl; [|done].
    f_equal. unfold addEdges. repeat case_decide; set_solver.
  - cbn [forEach]. rewrite run_assoc, M_bind_unfold, ensureEntry_spec.
    set (s0 := mkStore (<[d := neighbours (layersGraph s) d]> (layersGraph s)) (areaCache s)).
    rewrite run_assoc, M_bind_unfold.
    rewrite (setAdd_Some d E s0 (neighbours (layersGraph s) d)) by (simpl; apply lookup_insert_eq).
    set (s1 := mkStore (<[d := {[E]} ∪ neighbours (layersGraph s) d]> (layersGraph s0)) (areaCache s0)).
    assert (is_Some (layersGraph s1 !! E)) as [XE HXE].
    { simpl. destruct (decide (d = E)) as [->|]; [rewrite lookup_insert_eq; eauto|].
      rewrite !lookup_insert_ne by done. done. }
    rewrite M_bind_unfold, (setAdd_Some _ _ _ _ HXE).
    set (s2 := mkStore (<[E := {[d]} ∪ XE]> (layersGraph s1)) (areaCache s1)).
    destruct (IH s2) as (g' & Hrun & Hg').
    { simpl. rewrite lookup_insert_eq. eauto. }
    exists g'. split; [exact Hrun|].
    intros k. rewrite Hg'. subst s2 s1 s0. simpl in *. unfold neighbours.
    destruct (decide (E = k)) as [->|HEk].
    + rewrite lookup_insert_eq. simpl.
      destruct (decide (d = k)) as [->|Hdk].
      * rewrite lookup_insert_eq in HXE. injection HXE as <-.
        rewrite (decide_True (P := k ∈ k :: cs)) by set_solver.
        destruct (decide (k ∈ cs)); f_equal; unfold addEdges, neighbours;
          repeat case_decide; set_solver.
      * rewrite !lookup_insert_ne in HXE by done. rewrite HXE. simpl.
        destruct (decide (k ∈ cs)).
        -- rewrite decide_True by set_solver. f_equal.
           unfold addEdges; repeat case_decide; set_solver.
        -- rewrite decide_False by set_solver. simpl. f_equal.
           unfold addEdges; repeat case_decide; set_solver.
    + rewrite lookup_insert_ne by done.
      destruct (decide (d = k)) as [->|Hdk].
      * rewrite !lookup_insert_eq. simpl.
        rewrite (decide_True (P := k ∈ k :: cs)) by set_solver.
        destruct (decide (k ∈ cs)); f_equal; unfold addEdges;
          repeat case_decide; set_solver.
      * rewrite !lookup_insert_ne by done.
        destruct (decide (k ∈ cs)).
        -- rewrite decide_True by set_solver. f_equal.
           unfold addEdges; repeat case_decide; set_solver.
        -- rewrite decide_False by set_solver.
           destruct (layersGraph s !! k) as [X|]; simpl; [|done]. f_equal.
           unfold addEdges; repeat case_decide; set_solver.
Qed.

Lemma lookup_replaceWholesale E N g k :
  replaceWholesale E N g !! k =
    if decide (k = E) then Some N
    else if decide (k ∈ N) then Some ({[E]} ∪ neighbours g k)
    else (λ X, X ∖ {[E]}) <$> g !! k.
Proof.
  unfold replaceWholesale, insertFresh, discardEdges, neighbours.
  destruct (decide (k = E)) as [->|Hne].
  - rewrite !lookup_insert_eq. simpl. f_equal. set_solver.
  - rewrite lookup_insert_ne by done.
    rewrite lookup_union_with, lookup_gset_to_gmap, lookup_insert_ne, lookup_fmap by done.
    destruct (decide (k ∈ N)).
    + rewrite option_guard_True by done. simpl.
      destruct (g !! k) as [X|]; simpl; f_equal.
      * apply set_eq. intros y. destruct (decide (y = E)); set_solver.
      * set_solver.
    + rewrite option_guard_False by done. simpl.
      by destruct (g !! k).
Qed.

(** The graph after [updateLayerGraph(layerID, connLayersIDs, true)], when
    every id recorded as a neighbour of [layerID] has an entry. *)
Lemma updateLayerGraph_lookup E N s :
  (∀ k, k ∈ neighbours (layersGraph s) E → is_Some (layersGraph s !! k)) →
  ∃ g', updateLayerGraph E N true s = (mkStore g' (areaCache s), Normal tt) ∧
    ∀ k, g' !! k =
      if decide (k = E) then Some N
      else if decide (k ∈ N ∖ neighbours (layersGraph s) E)
           then Some ({[E]} ∪ neighbours (layersGraph s) k)
      else if decide (k ∈ neighbours (layersGraph s) E ∖ N)
           then (λ X, X ∖ {[E]}) <$> layersGraph s !! k
      else layersGraph s !! k.
Proof.
  intros Hprev.
  set (prev := neighbours (layersGraph s) E).
  set (s0 := mkStore (<[E := prev]> (layersGraph s)) (areaCache s)).
  destruct (deleteLoop_spec E (elements (filter (λ id, id ∉ N) prev)) s0) as (g1 & Hrun1 & Hg1).
  { simpl. rewrite lookup_insert_eq. eauto. }
  { intros k Hk. simpl. apply elem_of_elements, elem_of_filter in Hk as [_ Hk].
    destruct (decide (E = k)) as [->|]; [rewrite lookup_insert_eq; eauto|].
    rewrite lookup_insert_ne by done. by apply Hprev. }
  destruct (createLoop_spec E (elements (filter (λ id, id ∉ prev) N)) (mkStore g1 (areaCache s0)))
    as (g2 & Hrun2 & Hg2).
  { simpl. rewrite Hg1. simpl. rewrite lookup_insert_eq. simpl. eauto. }
  exists g2. split.
  { unfold updateLayerGraph. rewrite M_bind_unfold, ensureEntry_spec. mrun.
    rewrite lookup_insert_eq. cbn [from_option]. mrun.
    fold prev. fold s0. rewrite M_bind_unfold, Hrun1. exact Hrun2. }
  intros k. rewrite Hg2. cbn [layersGraph]. unfold neighbours at 1. rewrite !Hg1.
  subst s0. cbn [layersGraph].
  assert (filter (λ id, id ∉ N) prev = prev ∖ N) as Hf1.
  { apply set_eq. intros y. rewrite elem_of_filter. set_solver. }
  assert (filter (λ id, id ∉ prev) N = N ∖ prev) as Hf2.
  { apply set_eq. intros y. rewrite elem_of_filter. set_solver. }
  rewrite Hf1, Hf2.
  assert (∀ X : gset Z, list_to_set (elements X) = X) as Hls.
  { intros X. apply set_eq. intros y. by rewrite elem_of_list_to_set, elem_of_elements. }
  rewrite !Hls.
  assert (∀ X : gset Z, k ∈ elements X ↔ k ∈ X) as Hel by (intros; apply elem_of_elements).
  clear Hrun1 Hrun2 Hg1 Hg2 Hprev Hf1 Hf2 Hls.
  destruct (decide (k = E)) as [->|HkE].
  - rewrite lookup_insert_eq. cbn [fmap option_fmap option_map default].
    fold prev. clearbody prev.
    destruct (decide (E ∈ elements (N ∖ prev))) as [Hin|Hnin];
      [apply Hel in Hin|rewrite Hel in Hnin]; clear Hel;
      cbn [fmap option_fmap option_map default]; f_equal; unfold addEdges, dropEdges;
      rewrite !(decide_True (P := E = E)) by done; unfold id;
      apply set_eq; intros y; repeat case_decide;
      destruct (decide (y ∈ prev)); destruct (decide (y ∈ N)); set_solver.
  - rewrite lookup_insert_ne by done. fold prev.
    destruct (decide (k ∈ elements (N ∖ prev))) as [Hin|Hnin].
    + apply Hel in Hin. clear Hel. rewrite decide_True by done. f_equal.
      unfold neighbours in *. clearbody prev.
      destruct (layersGraph s !! k) as [X|]; cbn [fmap option_fmap option_map default];
        unfold addEdges, dropEdges; rewrite ?(decide_False (P := k = E)) by done;
        unfold id; apply set_eq; intros y; repeat case_decide;
        destruct (decide (y = E)); set_solver.
    + rewrite Hel in Hnin. clear Hel. rewrite decide_False by done. clearbody prev.
      destruct (decide (k ∈ prev ∖ N)) as [Hd|Hd].
      * destruct (layersGraph s !! k) as [X|]; cbn [fmap option_fmap option_map]; [|done].
        f_equal. unfold addEdges, dropEdges; rewrite ?(decide_False (P := k = E)) by done;
        unfold id; apply set_eq; intros y; repeat case_decide;
        destruct (decide (y = E)); set_solver.
      * destruct (layersGraph s !! k) as [X|]; cbn [fmap option_fmap option_map]; [|done].
        f_equal. unfold addEdges, dropEdges; rewrite ?(decide_False (P := k = E)) by done;
        unfold id; apply set_eq; intros y; repeat case_decide;
        destruct (decide (y = E)); set_solver.
Qed.

Lemma graph_symmetric_entries g a b :
  graph_symmetric g → a ∈ neighbours g b → is_Some (g !! a).
Proof.
  intros Hsym Hab. apply Hsym in Hab. unfold neighbours in Hab.
  destruct (g !! a); [eauto|set_solver].
Qed.

(** With a symmetric graph the edge diff is the wholesale replacement. *)
Lemma updateLayerGraph_replace E N s :
  graph_symmetric (layersGraph s) →
  updateLayerGraph E N true s
    = (mkStore (replaceWholesale E N (layersGraph s)) (areaCache s), Normal tt).
Proof.
  intros Hsym.
  destruct (updateLayerGraph_lookup E N s) as (g' & Hrun & Hg').
  { intros k Hk. by eapply graph_symmetric_entries. }
  rewrite Hrun. f_equal. f_equal. apply map_eq. intros k.
  rewrite Hg', lookup_replaceWholesale.
  destruct (decide (k = E)) as [->|HkE]; [done|].
  destruct (decide (k ∈ N)) as [HkN|HkN].
  - destruct (decide (k ∈ N ∖ neighbours (layersGraph s) E)) as [|Hn]; [done|].
    rewrite decide_False by set_solver.
    assert (k ∈ neighbours (layersGraph s) E) as Hk by set_solver.
    apply Hsym in Hk. unfold neighbours in *.
    destruct (layersGraph s !! k) as [X|]; simpl in *; [|set_solver].
    f_equal. set_solver.
  - rewrite decide_False by set_solver.
    destruct (decide (k ∈ neighbours (layersGraph s) E ∖ N)) as [|Hn]; [done|].
    assert (E ∉ neighbours (layersGraph s) k) as Hk.
    { intros HE. apply Hsym in HE. set_solver. }
    unfold neighbours in Hk.
    destruct (layersGraph s !! k) as [X|]; simpl in *; [|done].
    f_equal. set_solver.
Qed.

End UpdateFacts.

Section Traversal.
Context {Geo : Type}.
Variable turf_area : GeoJSON Geo → Q.
Variable G : list (Layer Geo).
Implicit Types (s : Store) (g : gmap Z (gset Z)) (c : gmap Z Q).

#[local] Abbreviation memo_ext := (memo_ext turf_area G).
#[local] Abbreviation traversal_post := (traversal_post turf_area G).
#[local] Abbreviation loop_post := (loop_post turf_area G).

Lemma memo_ext_refl U c : memo_ext U c c.
Proof. split; [done|]. intros y a H1 H2. congruence. Qed.

Lemma memo_ext_trans U c1 c2 c3 :
  memo_ext U c1 c2 → memo_ext U c2 c3 → memo_ext U c1 c3.
Proof.
  intros [S1 N1] [S2 N2]. split; [by etrans|].
  intros y a H3 H1. destruct (c2 !! y) as [b|] eqn:E2.
  - assert (c3 !! y = Some b) as H by (eapply lookup_weaken; eauto).
    rewrite H in H3. injection H3 as <-. by apply N1.
  - by apply N2.
Qed.

Lemma memo_ext_areaOf U c c' y :
  memo_ext U c c' → areaOf turf_area G c' y = areaOf turf_area G c y.
Proof.
  intros [Hsub Hnew]. unfold areaOf.
  destruct (c !! y) as [a|] eqn:E.
  - by rewrite (lookup_weaken _ _ _ _ E Hsub).
  - destruct (c' !! y) as [a|] eqn:E'; [|done].
    destruct (Hnew y a E' E) as (_ & l & -> & ->). done.
Qed.

Lemma getAreaFromCache_hit id s a :
  areaCache s !! id = Some a →
  getAreaFromCache turf_area id G s = (s, Normal a).
Proof. intros H. unfold getAreaFromCache. mrun. by rewrite H. Qed.

Lemma getAreaFromCache_miss id s l :
  areaCache s !! id = None → getLayer G id = Some l →
  getAreaFromCache turf_area id G s
    = (mkStore (layersGraph s) (<[id := turf_area (toGeoJSON l)]> (areaCache s)),
       Normal (turf_area (toGeoJSON l))).
Proof. intros H1 H2. unfold getAreaFromCache. mrun. rewrite H1, H2. by mrun. Qed.

Lemma getAreaFromCache_gone id s :
  areaCache s !! id = None → getLayer G id = None →
  getAreaFromCache turf_area id G s = (s, Throw (Error "Layer not found")).
Proof. intros H1 H2. unfold getAreaFromCache. mrun. by rewrite H1, H2. Qed.

(** What one call of [getAreaFromCache] does, in one statement. *)
Lemma getAreaFromCache_cases (U : gset Z) id s :
  id ∈ U →
  ∃ s' r, getAreaFromCache turf_area id G s = (s', r) ∧
    layersGraph s' = layersGraph s ∧
    memo_ext U (areaCache s) (areaCache s') ∧
    (r = Normal (areaOf turf_area G (areaCache s) id) ∨
     (r = Throw (Error "Layer not found") ∧ s' = s ∧
      areaCache s !! id = None ∧ getLayer G id = None)).
Proof.
  intros Hid. unfold areaOf.
  destruct (areaCache s !! id) as [a|] eqn:Hc.
  - exists s, (Normal a). rewrite (getAreaFromCache_hit _ _ _ Hc).
    split_and!; auto using memo_ext_refl.
  - destruct (getLayer G id) as [l|] eqn:Hl.
    + eexists _, _. rewrite (getAreaFromCache_miss _ _ _ Hc Hl).
      split_and!; [done|done| |by left].
      split; [by apply insert_subseteq|].
      intros y a. cbn [areaCache].
      destruct (decide (id = y)) as [->|Hne].
      * rewrite lookup_insert_eq. intros [= <-] _. eauto.
      * rewrite lookup_insert_ne by done. congruence.
    + exists s, (Throw (Error "Layer not found")).
      rewrite (getAreaFromCache_gone _ _ Hc Hl).
      split_and!; auto using memo_ext_refl.
Qed.

Lemma size_difference_lt (U v : gset Z) (x : Z) (fuel : nat) :
  x ∈ U → x ∉ v → (size (U ∖ v) < S fuel)%nat →
  ∀ v', {[x]} ∪ v ⊆ v' → (size (U ∖ v') < fuel)%nat.
Proof.
  intros HxU Hxv Hsz v' Hsub.
  assert (U ∖ v' ⊂ U ∖ v) as Hlt.
  { split; [set_solver|]. intros Hc. assert (x ∈ U ∖ v') by set_solver. set_solver. }
  apply subset_size in Hlt. simpl in *. lia.
Qed.

Lemma memo_ext_None U c c' y :
  memo_ext U c c' → c' !! y = None → c !! y = None.
Proof.
  intros [Hs _] Hn. destruct (c !! y) eqn:E; [|done].
  by rewrite (lookup_weaken _ _ _ _ E Hs) in Hn.
Qed.

Lemma loop_sound (U : gset Z) g (w : Z → Q) (fuel : nat) (x : Z) (v0 : gset Z) :
  (∀ y vi si,
     layersGraph si = g →
     (∀ z, areaOf turf_area G (areaCache si) z = w z) →
     y ∈ U → v0 ⊆ vi →
     traversal_post U g w fuel y vi si (_recursiveGetTotalArea turf_area fuel y G vi si)) →
  ∀ ids total vi si,
    (∀ y, y ∈ ids → y ∈ U ∧ y ∈ neighbours g x) → v0 ⊆ vi →
    layersGraph si = g →
    (∀ z, areaOf turf_area G (areaCache si) z = w z) →
    loop_post U g w fuel x ids total vi si
      (totalAreaLoop (λ id ch, _recursiveGetTotalArea turf_area fuel id G ch)
         ids total vi si).
Proof.
  intros Hrec. induction ids as [|y ids IHids]; intros total vi si Hids Hv0 Hgi Hwi.
  - unfold loop_post. cbn [totalAreaLoop dfsLoop]. unfold mret, M_ret. cbn [fst snd].
    split_and!; auto using memo_ext_refl.
  - unfold loop_post. cbn [totalAreaLoop dfsLoop].
    assert (traversal_post U g w fuel y vi si
              (_recursiveGetTotalArea turf_area fuel y G vi si)) as Hsub.
    { apply Hrec; auto. apply Hids. set_solver. }
    assert (y ∈ neighbours g x) as Hxy by (apply Hids; set_solver).
    rewrite M_bind_unfold.
    destruct (_recursiveGetTotalArea turf_area fuel y G vi si) as [s2 [[a v2]|e|]];
      unfold traversal_post in Hsub; cbn [fst snd] in Hsub.
    + destruct Hsub as (Hg2 & Hext2 & Hdfs & Hsub2).
      rewrite Hdfs. cbn [mbind option_bind].
      destruct (IHids (total + a)%Q v2 s2) as (Hg3 & Hext3 & Hres).
      * intros z Hz. apply Hids. set_solver.
      * set_solver.
      * done.
      * intros z. rewrite (memo_ext_areaOf _ _ _ _ Hext2). apply Hwi.
      * split_and!; [done|by eapply memo_ext_trans|].
        destruct (totalAreaLoop _ ids (total + a)%Q v2 s2).2 as [[t v']|e|]; [| |done].
        -- destruct Hres as [Hd Hs]. split; [done|set_solver].
        -- destruct Hres as (-> & y' & Hy1 & Hy2 & Hy3). split; [done|].
           exists y'. split_and!; [done| |done]. by eapply memo_ext_None.
    + destruct Hsub as (Hg2 & Hext2 & -> & y' & Hy1 & Hy2 & Hy3).
      cbn [fst snd]. split; [done|]. split; [done|]. split; [done|].
      exists y'. split; [|done]. by eapply rtc_l.
    + done.
Qed.

Lemma traversal_sound (U : gset Z) g (w : Z → Q) :
  closed_on U g →
  ∀ fuel x v s,
    layersGraph s = g →
    (∀ y, areaOf turf_area G (areaCache s) y = w y) →
    x ∈ U → (size (U ∖ v) < fuel)%nat →
    traversal_post U g w fuel x v s (_recursiveGetTotalArea turf_area fuel x G v s).
Proof.
  intros Hclosed. induction fuel as [|fuel IH]; intros x v s Hg Hw Hx Hsz; [simpl in Hsz; lia|].
  unfold traversal_post. cbn [_recursiveGetTotalArea dfs].
  destruct (bool_decide (x ∈ v)) eqn:Hv.
  { unfold mret, M_ret. cbn [fst snd]. split_and!; auto using memo_ext_refl. }
  apply bool_decide_eq_false in Hv.
  destruct (getAreaFromCache_cases U x s Hx) as (s1 & r & Hrun & Hg1 & Hext1 & Hr).
  rewrite Hg in Hg1.
  rewrite M_bind_unfold, Hrun.
  destruct Hr as [->|(-> & -> & Hnone & Hgone)].
  2:{ cbn [fst snd]. split_and!; auto using memo_ext_refl. exists x. done. }
  destruct (Hclosed x Hx) as (X & HX & HXU).
  mrun. rewrite Hg1, HX. cbn [from_option]. mrun.
  rewrite Hw.
  assert (graphSucc g x = elements X) as -> by (unfold graphSucc, neighbours; by rewrite HX).
  destruct (loop_sound U g w fuel x ({[x]} ∪ v)) with (ids := elements X) (total := w x)
    (vi := {[x]} ∪ v) (si := s1) as (Hg3 & Hext3 & Hres).
  - intros y vi si Hgi Hwi Hy Hvi. apply IH; auto.
    by apply (size_difference_lt U v x fuel).
  - intros y Hy. apply elem_of_elements in Hy. split; [by apply HXU|].
    unfold neighbours. by rewrite HX.
  - done.
  - done.
  - intros z. rewrite (memo_ext_areaOf _ _ _ _ Hext1). apply Hw.
  - split_and!; [done|by eapply memo_ext_trans|].
    destruct (totalAreaLoop _ (elements X) (w x) ({[x]} ∪ v) s1).2 as [[t v']|e|]; [| |done].
    + destruct Hres as [Hd Hs]. split; [done|set_solver].
    + destruct Hres as (-> & y' & Hy1 & Hy2 & Hy3). split; [done|].
      exists y'. split_and!; [done| |done]. by eapply memo_ext_None.
Qed.

End Traversal.

Section Sums.
Implicit Types (l : list Q) (X Y : gset Z) (w : Z → Q).

Lemma sumList_app l1 l2 : (sumList (l1 ++ l2) == sumList l1 + sumList l2)%Q.
Proof.
  induction l1 as [|a l1 IH]; simpl.
  - ring.
  - rewrite IH. ring.
Qed.

Lemma sumList_perm l1 l2 : l1 ≡ₚ l2 → (sumList l1 == sumList l2)%Q.
Proof.
  induction 1 as [|a l1 l2 _ IH|a b l|l1 l2 l3 _ IH1 _ IH2]; simpl.
  - reflexivity.
  - by rewrite IH.
  - ring.
  - by rewrite IH1.
Qed.

Lemma sumOver_empty w : sumOver w ∅ = 0%Q.
Proof. unfold sumOver. by rewrite elements_empty. Qed.

Lemma sumOver_singleton w x : (sumOver w {[x]} == w x)%Q.
Proof. unfold sumOver. rewrite elements_singleton. simpl. ring. Qed.

Lemma sumOver_disj_union w X Y :
  X ## Y → (sumOver w (X ∪ Y) == sumOver w X + sumOver w Y)%Q.
Proof.
  intros Hd. unfold sumOver.
  rewrite (sumList_perm (w <$> elements (X ∪ Y)) (w <$> (elements X ++ elements Y))).
  - rewrite fmap_app. apply sumList_app.
  - apply fmap_Permutation. by apply elements_disj_union.
Qed.


Lemma sumOver_step w (v v1 v2 : gset Z) :
  v ⊆ v1 → v1 ⊆ v2 →
  (sumOver w (v2 ∖ v) == sumOver w (v1 ∖ v) + sumOver w (v2 ∖ v1))%Q.
Proof.
  intros H1 H2.
  assert (v2 ∖ v = (v1 ∖ v) ∪ (v2 ∖ v1)) as ->.
  { apply set_eq. intros y. destruct (decide (y ∈ v1)); set_solver. }
  apply sumOver_disj_union. set_solver.
Qed.

End Sums.

Section DfsFacts.
Variable succ : Z → list Z.
Variable w : Z → Q.
Variable U : gset Z.
Hypothesis U_closed : ∀ x y, x ∈ U → y ∈ succ x → y ∈ U.

Lemma dfsLoop_spec (fuel : nat) (x : Z) (v0 : gset Z) :
  (∀ y vi, y ∈ U → v0 ⊆ vi →
     ∃ t v', dfs succ w fuel y vi = Some (t, v') ∧ dfs_post succ w U y vi t v') →
  ∀ ids total vi,
    (∀ y, y ∈ ids → y ∈ U ∧ edge succ x y) → v0 ⊆ vi →
    ∃ t v', dfsLoop (dfs succ w fuel) ids total vi = Some (t, v') ∧
      vi ⊆ v' ∧ v' ⊆ vi ∪ U ∧ (∀ y, y ∈ ids → y ∈ v') ∧
      (∀ y, y ∈ v' → y ∉ vi → ∀ z, z ∈ succ y → z ∈ v') ∧
      (∀ y, y ∈ v' → y ∉ vi → rtc (edge succ) x y) ∧
      (t == total + sumOver w (v' ∖ vi))%Q.
Proof.
  clear U_closed. intros Hrec. induction ids as [|y ids IH]; intros total vi Hids Hv0.
  - exists total, vi. cbn [dfsLoop]. split_and!; try done; try set_solver.
    assert (vi ∖ vi = ∅) as -> by set_solver. rewrite sumOver_empty. ring.
  - cbn [dfsLoop].
    destruct (Hids y) as [HyU Hxy]; [set_solver|].
    destruct (Hrec y vi HyU Hv0) as (a & v1 & -> & H1 & H2 & H3 & H4 & H5 & H6).
    cbn [mbind option_bind].
    destruct (IH (total + a)%Q v1) as (t & v' & -> & I1 & I2 & I3 & I4 & I5 & I6).
    { intros z Hz. apply Hids. set_solver. }
    { set_solver. }
    exists t, v'. split_and!; try done.
    + set_solver.
    + set_solver.
    + intros z Hz. set_unfold in Hz; destruct Hz as [->|Hz]; [set_solver|by apply I3].
    + intros z Hz Hzv. destruct (decide (z ∈ v1)) as [Hin|Hnin].
      * intros z' Hz'. apply I1. by eapply H4.
      * by apply I4.
    + intros z Hz Hzv. destruct (decide (z ∈ v1)) as [Hin|Hnin].
      * eapply rtc_l; [exact Hxy|]. by apply H5.
      * by apply I5.
    + rewrite I6, H6, (sumOver_step w vi v1 v') by done. ring.
Qed.

Lemma dfs_spec : ∀ (fuel : nat) x v,
  x ∈ U → (size (U ∖ v) < fuel)%nat →
  ∃ t v', dfs succ w fuel x v = Some (t, v') ∧ dfs_post succ w U x v t v'.
Proof using U_closed.
  induction fuel as [|fuel IH]; intros x v Hx Hsz; [simpl in Hsz; lia|].
  cbn [dfs]. destruct (bool_decide (x ∈ v)) eqn:Hv.
  - apply bool_decide_eq_true in Hv. exists 0%Q, v. split; [done|].
    unfold dfs_post. split_and!; try done; try set_solver.
    assert (v ∖ v = ∅) as -> by set_solver. by rewrite sumOver_empty.
  - apply bool_decide_eq_false in Hv.
    destruct (dfsLoop_spec fuel x ({[x]} ∪ v)) with (ids := succ x) (total := w x)
      (vi := {[x]} ∪ v) as (t & v' & -> & I1 & I2 & I3 & I4 & I5 & I6).
    + intros y vi Hy Hvi. apply IH; [done|].
      by apply (size_difference_lt U v x fuel).
    + intros y Hy. split; [by eapply U_closed|done].
    + done.
    + exists t, v'. split; [done|]. unfold dfs_post. split_and!.
      * set_solver.
      * set_solver.
      * set_solver.
      * intros y Hy Hyv z Hz. destruct (decide (y = x)) as [->|Hne].
        -- by apply I3.
        -- eapply I4; eauto. set_solver.
      * intros y Hy Hyv. destruct (decide (y = x)) as [->|Hne]; [done|].
        apply I5; [done|set_solver].
      * rewrite I6.
        assert (v' ∖ v = {[x]} ∪ v' ∖ ({[x]} ∪ v)) as ->.
        { apply set_eq. intros y. destruct (decide (y = x)); set_solver. }
        rewrite sumOver_disj_union by set_solver.
        by rewrite sumOver_singleton.
Qed.

(** Run from an empty checked set, the traversal checks exactly the ids
    reachable from its start. *)
Lemma dfs_post_reach x t v' :
  dfs_post succ w U x ∅ t v' →
  (∀ y, y ∈ v' ↔ rtc (edge succ) x y) ∧ (t == sumOver w v')%Q.
Proof.
  clear U_closed. intros (H1 & H2 & H3 & H4 & H5 & H6). split.
  - intros y. split.
    + intros Hy. apply H5; [done|set_solver].
    + intros Hr. revert y Hr. apply rtc_ind_r; [done|].
      intros y z _ Hyz Hy. eapply H4; eauto. set_solver.
  - rewrite H6. assert (v' ∖ ∅ = v') as -> by set_solver. done.
Qed.

End DfsFacts.

Section InvFacts.
Implicit Types (s : Store) (g : gmap Z (gset Z)) (c : gmap Z Q).

Lemma neighbours_purgeGraph D g k :
  neighbours (purgeGraph D g) k = if decide (k ∈ D) then ∅ else neighbours g k ∖ D.
Proof.
  unfold neighbours. rewrite lookup_purgeGraph.
  destruct (decide (k ∈ D)); [done|]. destruct (g !! k); simpl; set_solver.
Qed.

Lemma graph_symmetric_purge D g :
  graph_symmetric g → graph_symmetric (purgeGraph D g).
Proof.
  intros Hsym a b. rewrite !neighbours_purgeGraph.
  specialize (Hsym a b).
  destruct (decide (a ∈ D)), (decide (b ∈ D)); set_solver.
Qed.

Lemma neighbours_replaceWholesale E N g k :
  neighbours (replaceWholesale E N g) k =
    if decide (k = E) then N
    else if decide (k ∈ N) then {[E]} ∪ neighbours g k
    else neighbours g k ∖ {[E]}.
Proof.
  unfold neighbours. rewrite lookup_replaceWholesale.
  destruct (decide (k = E)); [done|]. destruct (decide (k ∈ N)); [done|].
  destruct (g !! k); simpl; set_solver.
Qed.

Lemma graph_symmetric_replace E N g :
  graph_symmetric g → graph_symmetric (replaceWholesale E N g).
Proof.
  intros Hsym a b. rewrite !neighbours_replaceWholesale.
  specialize (Hsym a b).
  destruct (decide (a = E)) as [->|], (decide (b = E)) as [->|]; try done;
    repeat case_decide; set_solver.
Qed.

Lemma graph_symmetric_closed g : graph_symmetric g → graph_closed g.
Proof.
  intros Hsym k X HX y Hy. apply elem_of_dom.
  apply (graph_symmetric_entries g y k Hsym). unfold neighbours. by rewrite HX.
Qed.

Lemma dom_replaceWholesale E N g :
  dom (replaceWholesale E N g) = {[E]} ∪ N ∪ dom g.
Proof.
  apply set_eq. intros k. rewrite elem_of_dom, lookup_replaceWholesale.
  rewrite !elem_of_union, elem_of_singleton, elem_of_dom.
  destruct (decide (k = E)); [naive_solver|].
  destruct (decide (k ∈ N)); [naive_solver|].
  rewrite fmap_is_Some. naive_solver.
Qed.

Lemma dom_purgeGraph D g : dom (purgeGraph D g) = dom g ∖ D.
Proof.
  apply set_eq. intros k. rewrite elem_of_dom, lookup_purgeGraph, elem_of_difference, elem_of_dom.
  destruct (decide (k ∈ D)); [split; [by intros []|naive_solver]|].
  rewrite fmap_is_Some. naive_solver.
Qed.

Lemma graph_symmetric_empty : graph_symmetric ∅.
Proof. intros a b. unfold neighbours. rewrite !lookup_empty. done. Qed.

End InvFacts.

Section EvalFacts.
Context {Geo : Type}.
Variable turf_booleanOverlap : Geo → Geo → bool.
Variable turf_buffer : GeoJSON Geo → Q → GeoJSON Geo.
Variable turf_area : GeoJSON Geo → Q.
Implicit Types (s : Store) (g : gmap Z (gset Z)) (c : gmap Z Q).
Implicit Types (G : list (Layer Geo)) (l o : Layer Geo) (entity : MapEntity Geo).

#[local] Abbreviation discover := (getOverlappingLayerIds turf_booleanOverlap turf_buffer).
#[local] Abbreviation traverse := (_recursiveGetTotalArea turf_area).
#[local] Abbreviation totalArea := (fastOverlap_totalArea turf_booleanOverlap turf_buffer turf_area).
#[local] Abbreviation callback := (fastOverlap_callback turf_booleanOverlap turf_buffer turf_area).

Lemma getLayer_Some G id l : getLayer G id = Some l → l ∈ G ∧ _leaflet_id l = id.
Proof.
  unfold getLayer. induction G as [|o G IH]; simpl; [done|].
  case_bool_decide as Ho.
  - intros [= ->]. split; [set_solver|done].
  - intros H. destruct (IH H). split; [set_solver|done].
Qed.

Lemma getLayer_None G id : getLayer G id = None ↔ id ∉ layerIds G.
Proof.
  unfold getLayer, layerIds. induction G as [|o G IH]; simpl; [set_solver|].
  case_bool_decide as Ho; [set_solver|]. rewrite IH. set_solver.
Qed.

Lemma getLayer_is_Some G id : is_Some (getLayer G id) ↔ id ∈ layerIds G.
Proof.
  destruct (getLayer G id) eqn:E.
  - split; [|eauto]. intros _. destruct (decide (id ∈ layerIds G)) as [|Hn]; [done|].
    apply getLayer_None in Hn. congruence.
  - apply getLayer_None in E. split; [by intros []|done].
Qed.

Lemma run_readName {B} l (k : string → M B) s :
  (readName l ≫= k) s =
    match sublayerName l with
    | Some n => k n s
    | None => (s, Throw TypeError)
    end.
Proof. unfold readName. by destruct (sublayerName l). Qed.

Lemma readNames_spec G s :
  forEach G (λ x, readName x;; mret tt) s
    = (s, if namesReadable G then Normal tt else Throw TypeError).
Proof.
  induction G as [|o G IH]; [done|].
  cbn [forEach namesReadable forallb]. rewrite run_assoc, run_readName.
  destruct (sublayerName o) as [n|].
  - rewrite bool_decide_eq_true_2 by eauto. mrun. exact IH.
  - by rewrite bool_decide_eq_false_2 by (by intros []).
Qed.

Lemma getLayerPolygon_naivePolygon o :
  match getLayerPolygon o with
  | Normal p => naivePolygon (toGeoJSON o) = Some p
  | Throw e => e = Error "Unsupported geometry type" ∧ naivePolygon (toGeoJSON o) = None
  | OutOfFuel => False
  end.
Proof. unfold getLayerPolygon, naivePolygon. by destruct (toGeoJSON o). Qed.

Lemma features0_Throw (buffer : GeoJSON Geo) e : features0 buffer = Throw e → e = TypeError.
Proof. destruct buffer; simpl; congruence. Qed.

Lemma features0_not_OutOfFuel (buffer : GeoJSON Geo) : features0 buffer ≠ OutOfFuel.
Proof. by destruct buffer. Qed.

Lemma booleanOverlap_Throw (b p : option Geo) e :
  booleanOverlap turf_booleanOverlap b p = Throw e → e = TypeError.
Proof. destruct b, p; simpl; congruence. Qed.

Lemma booleanOverlap_not_OutOfFuel (b p : option Geo) :
  booleanOverlap turf_booleanOverlap b p ≠ OutOfFuel.
Proof. by destruct b, p. Qed.

Lemma overlapsBuffer_eq (buffer : GeoJSON Geo) o b p r :
  features0 buffer = Normal b → naivePolygon (toGeoJSON o) = Some p →
  booleanOverlap turf_booleanOverlap b p = Normal r →
  overlapsBuffer turf_booleanOverlap buffer o = r.
Proof. intros H1 H2 H3. unfold overlapsBuffer. by rewrite H1, H2, H3. Qed.

(** Neighbour discovery ends with a set of ids or an exception, and finds
    ids of other layers of the group only. *)
Lemma overlappingLoop_spec l buffer others : ∀ acc,
  match overlappingLoop turf_booleanOverlap l buffer others acc with
  | Normal N =>
      N = acc ∪ list_to_set (_leaflet_id <$>
            filter (λ o, _compareLayers l o = false ∧ overlapsBuffer turf_booleanOverlap buffer o = true)
              others) ∧
      Forall (λ o, _compareLayers l o = false →
                ∃ b p r, features0 buffer = Normal b ∧
                  naivePolygon (toGeoJSON o) = Some p ∧
                  booleanOverlap turf_booleanOverlap b p = Normal r) others
  | Throw e => e = TypeError ∨ e = Error "Unsupported geometry type"
  | OutOfFuel => False
  end.
Proof.
  clear turf_buffer turf_area.
  induction others as [|o others IH]; intros acc.
  - simpl. split; [set_solver|constructor].
  - cbn [overlappingLoop]. rewrite filter_cons.
    destruct (_compareLayers l o) eqn:Hcmp.
    { rewrite decide_False by (intros []; congruence).
      specialize (IH acc). destruct (overlappingLoop _ l buffer others acc); [|done|done].
      destruct IH as [-> HF]. split; [done|]. constructor; [congruence|done]. }
    pose proof (getLayerPolygon_naivePolygon o) as Hp.
    destruct (getLayerPolygon o) as [p|e|]; cbn [mbind completion_bind]; [|right; tauto|done].
    pose proof (features0_Throw buffer) as Hb1.
    pose proof (features0_not_OutOfFuel buffer) as Hb2.
    destruct (features0 buffer) as [b|e|] eqn:Hb; cbn [mbind completion_bind];
      [|left; by apply Hb1|done].
    pose proof (booleanOverlap_Throw b p) as Hr1.
    pose proof (booleanOverlap_not_OutOfFuel b p) as Hr2.
    destruct (booleanOverlap _ b p) as [r|e|] eqn:Hr; cbn [mbind completion_bind];
      [|left; by apply Hr1|done].
    assert (overlapsBuffer turf_booleanOverlap buffer o = r) as Hov
      by (by eapply overlapsBuffer_eq).
    match goal with |- context [overlappingLoop _ l buffer others ?A] => specialize (IH A) end.
    destruct (overlappingLoop _ l buffer others _); [|done|done].
    destruct IH as [-> HF]. split.
    + destruct r.
      * rewrite decide_True by done. set_solver.
      * rewrite decide_False by (intros []; congruence). done.
    + constructor; [|done]. intros _. by exists b, p, r.
Qed.

Lemma discover_Normal l G N :
  discover l G = Normal N →
  N = list_to_set (_leaflet_id <$> overlapped turf_booleanOverlap turf_buffer l G).
Proof.
  unfold getOverlappingLayerIds, overlapped. intros H.
  pose proof (overlappingLoop_spec l (turf_buffer (toGeoJSON l) FIRE_BUFFER_IN_METER) G ∅) as Hs.
  rewrite H in Hs. destruct Hs as [-> _]. set_solver.
Qed.

Lemma discover_ids l G N :
  discover l G = Normal N → N ⊆ layerIds G ∖ {[_leaflet_id l]}.
Proof.
  intros H. rewrite (discover_Normal _ _ _ H). intros y Hy.
  apply elem_of_list_to_set, list_elem_of_fmap in Hy as (o & -> & Ho).
  apply list_elem_of_filter in Ho as [[Hcmp _] Ho].
  unfold _compareLayers in Hcmp. apply bool_decide_eq_false in Hcmp.
  apply elem_of_difference. split; [|set_solver].
  apply elem_of_list_to_set, list_elem_of_fmap. eauto.
Qed.

Lemma discover_not_OutOfFuel l G : discover l G ≠ OutOfFuel.
Proof.
  unfold getOverlappingLayerIds. intros H.
  pose proof (overlappingLoop_spec l (turf_buffer (toGeoJSON l) FIRE_BUFFER_IN_METER) G ∅) as Hs.
  by rewrite H in Hs.
Qed.

End EvalFacts.

Section EvalInv.
Context {Geo : Type}.
Variable turf_booleanOverlap : Geo → Geo → bool.
Variable turf_buffer : GeoJSON Geo → Q → GeoJSON Geo.
Variable turf_area : GeoJSON Geo → Q.
Implicit Types (s : Store) (g : gmap Z (gset Z)) (c : gmap Z Q).
Implicit Types (G : list (Layer Geo)) (l o : Layer Geo) (entity : MapEntity Geo).

#[local] Abbreviation discover := (getOverlappingLayerIds turf_booleanOverlap turf_buffer).
#[local] Abbreviation traverse := (_recursiveGetTotalArea turf_area).
#[local] Abbreviation totalArea := (fastOverlap_totalArea turf_booleanOverlap turf_buffer turf_area).
#[local] Abbreviation callback := (fastOverlap_callback turf_booleanOverlap turf_buffer turf_area).

(** One evaluation of the incremental rule, step by step. *)
Lemma fastOverlap_totalArea_run G entity s :
  graph_symmetric (layersGraph s) →
  totalArea G entity s =
    match sublayerName (layer entity) with
    | None => (s, Throw TypeError)
    | Some _ =>
        if namesReadable G then
          match discover (layer entity) G with
          | Normal N =>
              let s2 := updatedStore G entity N s in
              match traverse (S (size (graphIds (layersGraph s2))))
                      (_leaflet_id (layer entity)) G ∅ s2 with
              | (s3, Normal (t, _)) => (s3, Normal t)
              | (s3, Throw e) => (s3, Throw e)
              | (s3, OutOfFuel) => (s3, OutOfFuel)
              end
          | Throw e => (gcStore G s, Throw e)
          | OutOfFuel => (gcStore G s, OutOfFuel)
          end
        else (gcStore G s, Throw TypeError)
    end.
Proof.
  intros Hsym. unfold fastOverlap_totalArea.
  rewrite run_readName. destruct (sublayerName (layer entity)) as [n|]; [|done].
  rewrite M_bind_unfold, deleteFromAreaCache_spec. fold (gcStore G s).
  rewrite M_bind_unfold, readNames_spec.
  destruct (namesReadable G); [|done].
  destruct (discover (layer entity) G) as [N|e|]; mrun; [|done|done].
  rewrite M_bind_unfold, updateLayerGraph_replace
    by (cbn [gcStore layersGraph]; by apply graph_symmetric_purge).
  fold (updatedStore G entity N s). mrun.
  rewrite M_bind_unfold.
  destruct (traverse _ _ G ∅ (updatedStore G entity N s)) as [s3 [[t v']|e|]]; done.
Qed.

Lemma fastOverlap_callback_run G entity s :
  callback G entity s =
    match totalArea G entity s with
    | (s', Normal t) => (s', Normal (clusterDecision t))
    | (s', Throw e) => (s', Throw e)
    | (s', OutOfFuel) => (s', OutOfFuel)
    end.
Proof.
  unfold fastOverlap_callback. rewrite M_bind_unfold.
  by destruct (totalArea G entity s) as [s' [t|e|]].
Qed.

Lemma fastOverlap_callback_store G entity s :
  (callback G entity s).1 = (totalArea G entity s).1.
Proof.
  rewrite fastOverlap_callback_run. by destruct (totalArea G entity s) as [s' [t|e|]].
Qed.

Lemma store_inv_gcStore G s : store_inv s → store_inv (gcStore G s).
Proof.
  intros [Hsym Hdom]. split.
  - by apply graph_symmetric_purge.
  - cbn [gcStore layersGraph areaCache]. rewrite dom_purgeGraph.
    intros k Hk. apply elem_of_dom in Hk as [a Ha].
    rewrite lookup_filter_keys in Ha. case_decide; [done|].
    apply elem_of_difference. split; [|done]. apply Hdom, elem_of_dom. eauto.
Qed.

Lemma store_inv_updatedStore G entity N s :
  store_inv s → store_inv (updatedStore G entity N s).
Proof.
  intros Hinv. destruct (store_inv_gcStore G s Hinv) as [Hsym Hdom]. split.
  - by apply graph_symmetric_replace.
  - cbn [updatedStore layersGraph areaCache]. rewrite dom_replaceWholesale. set_solver.
Qed.

Lemma graph_closed_on g : graph_closed g → closed_on (dom g) g.
Proof.
  intros Hc k Hk. apply elem_of_dom in Hk as [X HX]. exists X. split; [done|].
  by eapply Hc.
Qed.

Lemma dom_subseteq_graphIds g : dom g ⊆ graphIds g.
Proof. unfold graphIds. set_solver. Qed.

(** The traversal of an evaluation, started on the updated store. *)
Lemma traverse_updatedStore G entity N s :
  store_inv s →
  let s2 := updatedStore G entity N s in
  traversal_post turf_area G (dom (layersGraph s2)) (layersGraph s2)
    (areaOf turf_area G (areaCache s2))
    (S (size (graphIds (layersGraph s2)))) (_leaflet_id (layer entity)) ∅ s2
    (traverse (S (size (graphIds (layersGraph s2)))) (_leaflet_id (layer entity)) G ∅ s2).
Proof.
  intros Hinv s2. destruct (store_inv_updatedStore G entity N s Hinv) as [Hsym Hdom].
  apply traversal_sound; [by apply graph_closed_on, graph_symmetric_closed|done|done| |].
  - subst s2. cbn [updatedStore layersGraph]. rewrite dom_replaceWholesale. set_solver.
  - apply Nat.lt_succ_r, subseteq_size.
    etrans; [|apply dom_subseteq_graphIds]. set_solver.
Qed.

Lemma store_inv_memo G s s' :
  store_inv s → layersGraph s' = layersGraph s →
  memo_ext turf_area G (dom (layersGraph s)) (areaCache s) (areaCache s') →
  store_inv s'.
Proof.
  intros [Hsym Hdom] Hg [Hsub Hnew]. split; rewrite Hg; [done|].
  intros k Hk. apply elem_of_dom in Hk as [a Ha].
  destruct (areaCache s !! k) as [b|] eqn:Hb.
  - apply Hdom, elem_of_dom. eauto.
  - by destruct (Hnew k a Ha Hb).
Qed.

(** Every evaluation keeps the store invariant, however it ends. *)
Lemma fastOverlap_totalArea_inv G entity s :
  store_inv s → store_inv (totalArea G entity s).1.
Proof.
  intros Hinv. rewrite fastOverlap_totalArea_run by apply Hinv.
  destruct (sublayerName (layer entity)); [|done].
  destruct (namesReadable G); [|by apply store_inv_gcStore].
  destruct (discover (layer entity) G) as [N|e|]; [|by apply store_inv_gcStore..].
  cbn zeta.
  pose proof (traverse_updatedStore G entity N s Hinv) as Hpost.
  cbn zeta in Hpost. destruct Hpost as (Hg & Hext & _).
  pose proof (store_inv_updatedStore G entity N s Hinv) as Hinv2.
  assert (store_inv (traverse (S (size (graphIds (layersGraph (updatedStore G entity N s)))))
                       (_leaflet_id (layer entity)) G ∅ (updatedStore G entity N s)).1) as Hinv3
    by (by eapply store_inv_memo).
  by destruct (traverse _ _ G ∅ (updatedStore G entity N s)) as [s3 [[t v']|e|]].
Qed.

Lemma store_inv_empty : store_inv emptyStore.
Proof. split; [apply graph_symmetric_empty|done]. Qed.

Lemma reachable_inv s :
  reachable turf_booleanOverlap turf_buffer turf_area s → store_inv s.
Proof.
  induction 1 as [|G entity s _ IH]; [apply store_inv_empty|].
  rewrite fastOverlap_callback_store. by apply fastOverlap_totalArea_inv.
Qed.

(** An evaluation never uses up the recursion budget of the model. *)
Lemma fastOverlap_totalArea_fuel G entity s :
  store_inv s → (totalArea G entity s).2 ≠ OutOfFuel.
Proof.
  intros Hinv. rewrite fastOverlap_totalArea_run by apply Hinv.
  destruct (sublayerName (layer entity)); [|done].
  destruct (namesReadable G); [|done].
  pose proof (discover_not_OutOfFuel turf_booleanOverlap turf_buffer (layer entity) G) as Hd.
  destruct (discover (layer entity) G) as [N|e|]; [|done|done].
  cbn zeta.
  pose proof (traverse_updatedStore G entity N s Hinv) as Hpost.
  cbn zeta in Hpost. destruct Hpost as (_ & _ & Hres).
  by destruct (traverse _ _ G ∅ (updatedStore G entity N s)) as [s3 [[t v']|e|]].
Qed.

End EvalInv.

Section TotalFacts.
Context {Geo : Type}.
Variable turf_booleanOverlap : Geo → Geo → bool.
Variable turf_buffer : GeoJSON Geo → Q → GeoJSON Geo.
Variable turf_area : GeoJSON Geo → Q.
Implicit Types (s : Store) (g : gmap Z (gset Z)) (c : gmap Z Q).
Implicit Types (G : list (Layer Geo)) (l o : Layer Geo) (entity : MapEntity Geo).

#[local] Abbreviation discover := (getOverlappingLayerIds turf_booleanOverlap turf_buffer).
#[local] Abbreviation traverse := (_recursiveGetTotalArea turf_area).
#[local] Abbreviation totalArea := (fastOverlap_totalArea turf_booleanOverlap turf_buffer turf_area).
#[local] Abbreviation callback := (fastOverlap_callback turf_booleanOverlap turf_buffer turf_area).

Lemma connected_graphSucc g x y :
  rtc (edge (graphSucc g)) x y ↔ connected g x y.
Proof.
  unfold connected. split; apply rtc_subrel; intros a b; unfold edge, graphSucc;
    by rewrite elem_of_elements.
Qed.

Lemma traversal_run_total G (U : gset Z) s x (fuel : nat) :
  closed_on U (layersGraph s) → x ∈ U → (size U < fuel)%nat →
  (∀ y, y ∈ U → is_Some (areaCache s !! y) ∨ is_Some (getLayer G y)) →
  ∃ s' t v', traverse fuel x G ∅ s = (s', Normal (t, v')) ∧
    layersGraph s' = layersGraph s ∧
    (∀ y, y ∈ v' ↔ connected (layersGraph s) x y) ∧
    (t == sumOver (areaOf turf_area G (areaCache s)) v')%Q.
Proof.
  intros Hclosed Hx Hfuel Havail.
  assert (size (U ∖ ∅) < fuel)%nat as Hsz.
  { eapply Nat.le_lt_trans; [|exact Hfuel]. apply subseteq_size. set_solver. }
  pose proof (traversal_sound turf_area G U (layersGraph s)
                (areaOf turf_area G (areaCache s)) Hclosed fuel x ∅ s eq_refl
                (λ _, eq_refl) Hx Hsz) as Hpost.
  assert (∀ a b, a ∈ U → b ∈ graphSucc (layersGraph s) a → b ∈ U) as HUc.
  { intros a b Ha Hb. destruct (Hclosed a Ha) as (X & HX & HXU).
    unfold graphSucc in Hb. apply elem_of_elements in Hb.
    unfold neighbours in Hb. rewrite HX in Hb. by apply HXU. }
  assert (∀ a y, connected (layersGraph s) a y → a ∈ U → y ∈ U) as HUr.
  { intros a y Hy. induction Hy as [a|a b c' Hab _ IH]; [done|]. intros Ha. apply IH.
    eapply HUc; [exact Ha|]. unfold graphSucc. by apply elem_of_elements. }
  destruct (traverse fuel x G ∅ s) as [s' [[t v']|e|]]; unfold traversal_post in Hpost;
    cbn [fst snd] in Hpost; destruct Hpost as (Hg & Hext & Hres).
  - destruct Hres as [Hdfs _].
    destruct (dfs_spec (graphSucc (layersGraph s)) (areaOf turf_area G (areaCache s)) U HUc
                fuel x ∅ Hx Hsz) as (t2 & v2 & Hdfs2 & Hp).
    rewrite Hdfs in Hdfs2. injection Hdfs2 as <- <-.
    apply dfs_post_reach in Hp as [Hreach Hsum].
    exists s', t, v'. split_and!; [done|done| |done].
    intros y. rewrite Hreach. apply connected_graphSucc.
  - destruct Hres as (_ & y & Hy & Hnone & Hgone). exfalso.
    destruct (Havail y (HUr x y Hy Hx)) as [[a Ha]|[l Hl]]; congruence.
  - done.
Qed.

(** X9. Started on an empty checked set with enough budget, inside a set of
    ids [U] that all have entries with neighbours in [U] and whose area is
    cached or whose layer is in the group, the traversal returns: it checks
    exactly the ids connected to its start, and its total is the sum of
    their areas, each counted once. *)
Theorem traversal_total G (U : gset Z) s x (fuel : nat) :
  closed_on U (layersGraph s) → x ∈ U → (size U < fuel)%nat →
  (∀ y, y ∈ U → is_Some (areaCache s !! y) ∨ is_Some (getLayer G y)) →
  ∃ s' t v', traverse fuel x G ∅ s = (s', Normal (t, v')) ∧
    layersGraph s' = layersGraph s ∧
    (∀ y, y ∈ v' ↔ connected (layersGraph s) x y) ∧
    (t == sumOver (areaOf turf_area G (areaCache s)) v')%Q.
Proof. exact (traversal_run_total G U s x fuel). Qed.

Lemma sumOver_three (w : Z → Q) (A B C : Z) :
  A ≠ B → B ≠ C → A ≠ C →
  (sumOver w {[A; B; C]} == w A + w B + w C)%Q.
Proof.
  intros HAB HBC HAC.
  rewrite !sumOver_disj_union, !sumOver_singleton by set_solver. ring.
Qed.

(** X10. On a cycle A-B, B-C, C-A the traversal started at any of the
    three ids returns, has checked exactly the three ids, and its total is
    the sum of the three areas, each counted once. *)
Theorem cycle_total G s (A B C x : Z) (fuel : nat) :
  A ≠ B → B ≠ C → A ≠ C →
  layersGraph s !! A = Some {[B; C]} →
  layersGraph s !! B = Some {[A; C]} →
  layersGraph s !! C = Some {[A; B]} →
  (∀ y, y ∈ ({[A; B; C]} : gset Z) →
     is_Some (areaCache s !! y) ∨ is_Some (getLayer G y)) →
  x ∈ ({[A; B; C]} : gset Z) → (3 < fuel)%nat →
  ∃ s' t, traverse fuel x G ∅ s = (s', Normal (t, {[A; B; C]})) ∧
    (t == areaOf turf_area G (areaCache s) A + areaOf turf_area G (areaCache s) B
          + areaOf turf_area G (areaCache s) C)%Q.
Proof.
  intros HAB HBC HAC HA HB HC Havail Hx Hfuel.
  set (U := ({[A; B; C]} : gset Z)).
  assert (closed_on U (layersGraph s)) as Hclosed.
  { intros k Hk. subst U. apply elem_of_union in Hk as [Hk|Hk];
      [apply elem_of_union in Hk as [Hk|Hk]|]; apply elem_of_singleton in Hk as ->;
      eexists; (split; [eassumption|set_solver]). }
  assert (size U = 3%nat) as HszU.
  { subst U. rewrite !size_union, !size_singleton by set_solver. done. }
  destruct (traversal_run_total G U s x fuel Hclosed Hx) as (s' & t & v' & Hrun & _ & Hreach & Hsum);
    [lia|done|].
  assert (∀ a y, connected (layersGraph s) a y → a ∈ U → y ∈ U) as HUr.
  { intros a y Hy. induction Hy as [a|a b c' Hab _ IH]; [done|]. intros Ha. apply IH.
    destruct (Hclosed a Ha) as (X & HX & HXU). apply HXU.
    unfold neighbours in Hab. by rewrite HX in Hab. }
  assert (∀ a b, a ∈ U → b ∈ U → a ≠ b → b ∈ neighbours (layersGraph s) a) as Hedge.
  { intros a b Ha Hb Hab. unfold neighbours. subst U.
    apply elem_of_union in Ha as [Ha|Ha];
      [apply elem_of_union in Ha as [Ha|Ha]|]; apply elem_of_singleton in Ha as ->;
      [rewrite HA|rewrite HB|rewrite HC]; set_solver. }
  assert (v' = U) as ->.
  { apply set_eq. intros y. rewrite Hreach. split; [intros Hy; by eapply HUr|].
    intros Hy. unfold connected. destruct (decide (x = y)) as [->|Hne]; [done|].
    apply rtc_once. by apply Hedge. }
  exists s', t. split; [done|]. rewrite Hsum. by apply sumOver_three.
Qed.

End TotalFacts.

Section EvalTheorems.
Context {Geo : Type}.
Variable turf_booleanOverlap : Geo → Geo → bool.
Variable turf_buffer : GeoJSON Geo → Q → GeoJSON Geo.
Variable turf_area : GeoJSON Geo → Q.
Implicit Types (s : Store) (g : gmap Z (gset Z)) (c : gmap Z Q).
Implicit Types (G : list (Layer Geo)) (l o : Layer Geo) (entity : MapEntity Geo).

#[local] Abbreviation discover := (getOverlappingLayerIds turf_booleanOverlap turf_buffer).
#[local] Abbreviation traverse := (_recursiveGetTotalArea turf_area).
#[local] Abbreviation totalArea := (fastOverlap_totalArea turf_booleanOverlap turf_buffer turf_area).
#[local] Abbreviation callback := (fastOverlap_callback turf_booleanOverlap turf_buffer turf_area).
#[local] Abbreviation reachable := (reachable turf_booleanOverlap turf_buffer turf_area).

Lemma elem_of_deadKeys G g k :
  k ∈ deadKeys G g ↔ k ∈ dom g ∧ k ∉ layerIds G.
Proof. unfold deadKeys. rewrite elem_of_filter, getLayer_None. tauto. Qed.

Lemma purged_gcStore G s x :
  store_inv s → x ∉ layerIds G → purged x (gcStore G s).
Proof.
  intros [Hsym Hdom] Hx. unfold purged. cbn [gcStore layersGraph areaCache].
  set (D := deadKeys G (layersGraph s)).
  assert (x ∈ D ∨ x ∉ dom (layersGraph s)) as Hcase.
  { destruct (decide (x ∈ dom (layersGraph s))); [left|by right].
    by apply elem_of_deadKeys. }
  split_and!.
  - rewrite lookup_filter_keys. case_decide; [done|].
    apply not_elem_of_dom. set_solver.
  - rewrite lookup_purgeGraph. case_decide; [done|].
    destruct Hcase as [|Hn]; [done|]. apply not_elem_of_dom in Hn. by rewrite Hn.
  - intros k X. rewrite lookup_purgeGraph. case_decide; [done|].
    destruct (layersGraph s !! k) as [X0|] eqn:HX0; [|done]. intros [= <-].
    intros [Hin HnD]%elem_of_difference. apply HnD.
    destruct Hcase as [|Hn]; [done|]. exfalso. apply Hn, elem_of_dom.
    apply (graph_symmetric_entries _ x k Hsym). unfold neighbours. by rewrite HX0.
Qed.

Lemma purged_replace (E : Z) (N : gset Z) s1 x :
  purged x s1 → x ∉ N → x ≠ E →
  purged x (mkStore (replaceWholesale E N (layersGraph s1)) (areaCache s1)).
Proof.
  intros (Hc & Hg & Hsets) HxN HxE. unfold purged.
  cbn [layersGraph areaCache]. split; [exact Hc|]. split.
  - rewrite lookup_replaceWholesale.
    destruct (decide (x = E)); [done|].
    destruct (decide (x ∈ N)); [done|]. by rewrite Hg.
  - intros k X. rewrite lookup_replaceWholesale.
    destruct (decide (k = E)); [by intros [= <-]|].
    destruct (decide (k ∈ N)).
    + intros [= <-]. unfold neighbours.
      destruct (layersGraph s1 !! k) as [X0|] eqn:HX0; cbn [default]; [|set_solver].
      specialize (Hsets k X0 HX0). set_solver.
    + destruct (layersGraph s1 !! k) as [X0|] eqn:HX0; [|done].
      intros [= <-]. specialize (Hsets k X0 HX0). set_solver.
Qed.

Lemma purged_updatedStore G entity N s x :
  purged x (gcStore G s) → x ∉ N → x ≠ _leaflet_id (layer entity) →
  purged x (updatedStore G entity N s).
Proof. apply purged_replace. Qed.

Lemma purged_memo G (U : gset Z) s s' x :
  purged x s → x ∉ layerIds G → layersGraph s' = layersGraph s →
  memo_ext turf_area G U (areaCache s) (areaCache s') → purged x s'.
Proof.
  intros (Hc & Hg & Hsets) Hx Hg' [_ Hnew]. unfold purged. rewrite Hg'.
  split_and!; [|done|done].
  destruct (areaCache s' !! x) as [a|] eqn:Ha; [|done].
  destruct (Hnew x a Ha Hc) as (_ & l & Hl & _).
  apply getLayer_None in Hx. congruence.
Qed.

(** X5. Once the garbage collection pass of an evaluation has run, an id
    that is not in the layer group and is not the evaluated layer's own id
    has no cache entry, no graph entry, and is in no neighbour set, however
    the evaluation ends. *)
Theorem evaluation_purges_absent_ids G entity s x :
  store_inv s →
  is_Some (sublayerName (layer entity)) →
  x ∉ layerIds G → x ≠ _leaflet_id (layer entity) →
  purged x (callback G entity s).1.
Proof.
  intros Hinv [n Hn] Hx HxE.
  rewrite fastOverlap_callback_store, fastOverlap_totalArea_run by apply Hinv.
  rewrite Hn.
  pose proof (purged_gcStore G s x Hinv Hx) as Hp1.
  destruct (namesReadable G); [|done].
  pose proof (discover_ids turf_booleanOverlap turf_buffer (layer entity) G) as Hids.
  destruct (discover (layer entity) G) as [N|e|]; [|done|done].
  specialize (Hids N eq_refl). cbn zeta.
  assert (purged x (updatedStore G entity N s)) as Hp2.
  { apply purged_updatedStore; [done|set_solver|done]. }
  pose proof (traverse_updatedStore turf_area G entity N s Hinv) as Hpost.
  cbn zeta in Hpost. destruct Hpost as (Hg & Hext & _).
  assert (purged x (traverse (S (size (graphIds (layersGraph (updatedStore G entity N s)))))
                      (_leaflet_id (layer entity)) G ∅ (updatedStore G entity N s)).1) as Hp3
    by (by eapply purged_memo).
  by destruct (traverse _ _ G ∅ (updatedStore G entity N s)) as [s3 [[t v']|e|]].
Qed.

(** X4. In every store the program can reach, the overlap graph is
    symmetric, every id in a neighbour set has an entry of its own, and
    every cached id has a graph entry. *)
Theorem reachable_graph_symmetric s :
  reachable s →
  (∀ a b, a ∈ neighbours (layersGraph s) b ↔ b ∈ neighbours (layersGraph s) a) ∧
  (∀ a b, a ∈ neighbours (layersGraph s) b → is_Some (layersGraph s !! a)) ∧
  dom (areaCache s) ⊆ dom (layersGraph s).
Proof.
  intros Hr. destruct (reachable_inv _ _ _ s Hr) as [Hsym Hdom].
  split_and!; [done| |done].
  intros a b. by apply graph_symmetric_entries.
Qed.

(** X6. No evaluation from a reachable store uses up the recursion budget
    of the model: the traversal always ends, with a value or an exception. *)
Theorem evaluation_terminates G entity s :
  reachable s → (callback G entity s).2 ≠ OutOfFuel.
Proof.
  intros Hr. apply reachable_inv in Hr.
  pose proof (fastOverlap_totalArea_fuel turf_booleanOverlap turf_buffer turf_area
                G entity s Hr) as Hf.
  rewrite fastOverlap_callback_run.
  by destruct (totalArea G entity s) as [s' [t|e|]].
Qed.

Lemma all_keys_live G entity N s k :
  is_Some (getLayer G (_leaflet_id (layer entity))) →
  N ⊆ layerIds G →
  k ∈ dom (layersGraph (updatedStore G entity N s)) → is_Some (getLayer G k).
Proof.
  intros HE HN. cbn [updatedStore gcStore layersGraph].
  rewrite dom_replaceWholesale, dom_purgeGraph.
  intros [[->%elem_of_singleton|Hk]%elem_of_union|[Hk Hd]%elem_of_difference]%elem_of_union.
  - done.
  - apply getLayer_is_Some. by apply HN.
  - apply getLayer_is_Some. destruct (decide (k ∈ layerIds G)) as [|Hn]; [done|].
    exfalso. apply Hd. by apply elem_of_deadKeys.
Qed.

Lemma evaluation_run_total G entity s N :
  store_inv s →
  is_Some (sublayerName (layer entity)) → namesReadable G = true →
  discover (layer entity) G = Normal N →
  is_Some (getLayer G (_leaflet_id (layer entity))) →
  ∃ s' t (cluster : gset Z),
    totalArea G entity s = (s', Normal t) ∧
    callback G entity s = (s', Normal (clusterDecision t)) ∧
    layersGraph s' =
      replaceWholesale (_leaflet_id (layer entity)) N (layersGraph (gcStore G s)) ∧
    (∀ y, y ∈ cluster ↔ connected (layersGraph s') (_leaflet_id (layer entity)) y) ∧
    (t == sumOver (areaOf turf_area G (areaCache (gcStore G s))) cluster)%Q.
Proof.
  intros Hinv [n Hn] Hnames Hdisc HE.
  pose proof (discover_ids turf_booleanOverlap turf_buffer (layer entity) G N Hdisc) as HN.
  pose proof (store_inv_updatedStore G entity N s Hinv) as [Hsym2 Hdom2].
  set (s2 := updatedStore G entity N s) in *.
  destruct (traversal_run_total turf_area G (dom (layersGraph s2)) s2
              (_leaflet_id (layer entity)) (S (size (graphIds (layersGraph s2)))))
    as (s' & t & v' & Hrun & Hg & Hreach & Hsum).
  { by apply graph_closed_on, graph_symmetric_closed. }
  { subst s2. cbn [updatedStore layersGraph]. rewrite dom_replaceWholesale. set_solver. }
  { apply Nat.lt_succ_r, subseteq_size, dom_subseteq_graphIds. }
  { intros y Hy. right. eapply all_keys_live; [done| |exact Hy]. set_solver. }
  assert (totalArea G entity s = (s', Normal t)) as Htot.
  { rewrite fastOverlap_totalArea_run by apply Hinv.
    rewrite Hn, Hnames, Hdisc. cbn zeta. fold s2. by rewrite Hrun. }
  exists s', t, v'. split_and!; [done| |done| |done].
  - by rewrite fastOverlap_callback_run, Htot.
  - intros y. by rewrite Hreach, Hg.
Qed.

(** X7. An evaluation for a layer of the group, with readable names and a
    neighbour discovery that found [N], returns: the graph it leaves is the
    collected graph with the edges of the layer replaced by [N], and its
    total is the sum, each counted once, of the areas of the ids connected
    to the layer in that graph; the rule result is the decision on this
    total. *)
Theorem evaluation_total G entity s N :
  store_inv s →
  is_Some (sublayerName (layer entity)) → namesReadable G = true →
  discover (layer entity) G = Normal N →
  is_Some (getLayer G (_leaflet_id (layer entity))) →
  ∃ s' t (cluster : gset Z),
    totalArea G entity s = (s', Normal t) ∧
    callback G entity s = (s', Normal (clusterDecision t)) ∧
    layersGraph s' =
      replaceWholesale (_leaflet_id (layer entity)) N (layersGraph (gcStore G s)) ∧
    (∀ y, y ∈ cluster ↔ connected (layersGraph s') (_leaflet_id (layer entity)) y) ∧
    (t == sumOver (areaOf turf_area G (areaCache (gcStore G s))) cluster)%Q.
Proof. exact (evaluation_run_total G entity s N). Qed.

(** X8. An evaluation for a layer that is not in the group, with readable
    names and a neighbour discovery that found [N], throws "Layer not
    found"; it has by then recorded the layer in the graph, with [N] as its
    neighbours. *)
Theorem evaluation_absent_layer G entity s N :
  store_inv s →
  is_Some (sublayerName (layer entity)) → namesReadable G = true →
  discover (layer entity) G = Normal N →
  getLayer G (_leaflet_id (layer entity)) = None →
  ∃ s', callback G entity s = (s', Throw (Error "Layer not found")) ∧
    layersGraph s' !! _leaflet_id (layer entity) = Some N.
Proof.
  intros Hinv [n Hn] Hnames Hdisc HE.
  exists (updatedStore G entity N s). split.
  - rewrite fastOverlap_callback_run, fastOverlap_totalArea_run by apply Hinv.
    rewrite Hn, Hnames, Hdisc. cbn zeta. cbn [_recursiveGetTotalArea].
    rewrite bool_decide_eq_false_2 by set_solver.
    rewrite M_bind_unfold, getAreaFromCache_gone; [done| |done].
    apply getLayer_None in HE.
    by destruct (purged_gcStore G s _ Hinv HE) as [Hc _].
  - cbn [updatedStore layersGraph]. rewrite lookup_replaceWholesale.
    by rewrite decide_True.
Qed.

End EvalTheorems.

Section NaiveFacts.
Context {Geo : Type}.
Variable turf_booleanOverlap : Geo → Geo → bool.
Variable turf_buffer : GeoJSON Geo → Q → GeoJSON Geo.
Variable turf_area : GeoJSON Geo → Q.
Implicit Types (s : Store) (g : gmap Z (gset Z)) (c : gmap Z Q).
Implicit Types (G : list (Layer Geo)) (l o : Layer Geo) (entity : MapEntity Geo).

#[local] Abbreviation discover := (getOverlappingLayerIds turf_booleanOverlap turf_buffer).
#[local] Abbreviation naive := (_getTotalAreaOfOverlappingEntities turf_booleanOverlap turf_buffer turf_area).
#[local] Abbreviation nsucc := (naiveSucc turf_booleanOverlap turf_buffer).
#[local] Abbreviation narea := (naiveArea turf_area).

Lemma getLayer_NoDup G l :
  NoDup (_leaflet_id <$> G) → l ∈ G → getLayer G (_leaflet_id l) = Some l.
Proof.
  unfold getLayer. induction G as [|o G IH]; intros Hnd Hl; [set_solver|].
  rewrite fmap_cons in Hnd. apply NoDup_cons in Hnd as [Ho Hnd].
  simpl. case_bool_decide as Heq.
  - apply elem_of_cons in Hl as [->|Hl]; [done|].
    exfalso. apply Ho. rewrite Heq. apply list_elem_of_fmap. eauto.
  - apply elem_of_cons in Hl as [->|Hl]; [done|]. by apply IH.
Qed.

(** The loop of the naive rule over layers that raise no exception is the
    loop of the abstract traversal over the overlapped ones. *)
Lemma naiveLoop_refine (succ : Z → list Z) (w : Z → Q) (fuel : nat)
    (rec : Layer Geo → gset Z → completion (Q * gset Z)) l buffer others :
  (∀ o v, o ∈ others → rec o v = liftDfs (dfs succ w fuel (_leaflet_id o) v)) →
  Forall (λ o, _compareLayers l o = false →
            ∃ b p r, features0 buffer = Normal b ∧
              naivePolygon (toGeoJSON o) = Some p ∧
              booleanOverlap turf_booleanOverlap b p = Normal r) others →
  ∀ total v,
    naiveLoop turf_booleanOverlap rec l buffer others total v =
    liftDfs (dfsLoop (dfs succ w fuel)
               (_leaflet_id <$>
                  filter (λ o, _compareLayers l o = false ∧
                               overlapsBuffer turf_booleanOverlap buffer o = true) others)
               total v).
Proof.
  clear turf_buffer turf_area.
  intros Hrec HF. induction HF as [|o others Ho HF IH]; intros total v; [done|].
  cbn [naiveLoop]. rewrite filter_cons.
  assert (∀ o' v', o' ∈ others →
            rec o' v' = liftDfs (dfs succ w fuel (_leaflet_id o') v')) as Hrec'.
  { intros o' v' Ho'. apply Hrec. set_solver. }
  destruct (_compareLayers l o) eqn:Hcmp.
  { rewrite decide_False by (intros []; congruence). by apply IH. }
  destruct (Ho eq_refl) as (b & p & r & Hb & Hp & Hr).
  rewrite Hp, Hb. cbn [mbind completion_bind]. rewrite Hr. cbn [mbind completion_bind].
  rewrite (overlapsBuffer_eq _ _ _ _ _ _ Hb Hp Hr).
  destruct r.
  - rewrite decide_True by done. rewrite fmap_cons. cbn [dfsLoop].
    rewrite Hrec by set_solver.
    destruct (dfs succ w fuel (_leaflet_id o) v) as [[a v']|]; cbn; [|done].
    by apply IH.
  - rewrite decide_False by (intros []; congruence). by apply IH.
Qed.

Lemma naive_refine G :
  NoDup (_leaflet_id <$> G) →
  discovery_ok turf_booleanOverlap turf_buffer G →
  ∀ fuel l v, l ∈ G →
    naive fuel l G v = liftDfs (dfs (nsucc G) (narea G) fuel (_leaflet_id l) v).
Proof.
  intros Hnd Hok. induction fuel as [|fuel IH]; intros l v Hl; [done|].
  cbn [_getTotalAreaOfOverlappingEntities dfs].
  destruct (bool_decide (_leaflet_id l ∈ v)); [done|].
  destruct (Hok l Hl) as [N HN]. unfold getOverlappingLayerIds in HN.
  pose proof (overlappingLoop_spec turf_booleanOverlap l
                (turf_buffer (toGeoJSON l) FIRE_BUFFER_IN_METER) G ∅) as Hs.
  rewrite HN in Hs. destruct Hs as [_ HF].
  rewrite (naiveLoop_refine (nsucc G) (narea G) fuel); [|by intros; apply IH|done].
  assert (nsucc G (_leaflet_id l)
          = _leaflet_id <$> overlapped turf_booleanOverlap turf_buffer l G) as ->
    by (unfold naiveSucc; by rewrite (getLayer_NoDup G l Hnd Hl)).
  assert (narea G (_leaflet_id l) = turf_area (toGeoJSON l)) as ->
    by (unfold naiveArea; by rewrite (getLayer_NoDup G l Hnd Hl)).
  done.
Qed.

Lemma naiveSucc_ids G x y : y ∈ nsucc G x → y ∈ layerIds G.
Proof.
  unfold naiveSucc. destruct (getLayer G x) as [l|]; [|set_solver].
  intros (o & -> & Ho)%list_elem_of_fmap.
  apply list_elem_of_filter in Ho as [_ Ho].
  apply elem_of_list_to_set, list_elem_of_fmap. eauto.
Qed.

Lemma naive_run_total G entity :
  NoDup (_leaflet_id <$> G) →
  discovery_ok turf_booleanOverlap turf_buffer G →
  layer entity ∈ G →
  ∃ t (cluster : gset Z),
    naive_totalArea turf_booleanOverlap turf_buffer turf_area G entity = Normal t ∧
    (∀ y, y ∈ cluster ↔ rtc (edge (nsucc G)) (_leaflet_id (layer entity)) y) ∧
    (t == sumOver (narea G) cluster)%Q.
Proof.
  intros Hnd Hok Hl. unfold naive_totalArea.
  rewrite (naive_refine G Hnd Hok) by done.
  destruct (dfs_spec (nsucc G) (narea G) (layerIds G)) with
    (fuel := S (S (length G))) (x := _leaflet_id (layer entity)) (v := (∅ : gset Z))
    as (t & v & Hdfs & Hp).
  - intros x y _. apply naiveSucc_ids.
  - apply elem_of_list_to_set, list_elem_of_fmap. eauto.
  - assert (size (layerIds G ∖ ∅) ≤ length G)%nat; [|lia].
    etrans; [apply (subseteq_size _ (layerIds G)); set_solver|].
    unfold layerIds. rewrite size_list_to_set by done. by rewrite length_fmap.
  - rewrite Hdfs. cbn. apply dfs_post_reach in Hp as [Hreach Hsum].
    by exists t, v.
Qed.

(** X11. On a group with distinct ids in which neighbour discovery raises
    no exception, the naive rule returns for every layer of the group: its
    total is the sum, each counted once, of the areas of the layers
    reachable from the layer through buffered overlaps. *)
Theorem naive_rule_total G entity :
  NoDup (_leaflet_id <$> G) →
  discovery_ok turf_booleanOverlap turf_buffer G →
  layer entity ∈ G →
  ∃ t (cluster : gset Z),
    naive_totalArea turf_booleanOverlap turf_buffer turf_area G entity = Normal t ∧
    (∀ y, y ∈ cluster ↔ rtc (edge (nsucc G)) (_leaflet_id (layer entity)) y) ∧
    (t == sumOver (narea G) cluster)%Q.
Proof. exact (naive_run_total G entity). Qed.

End NaiveFacts.

Lemma rtc_agree {A} (R1 R2 : relation A) (U : A → Prop) :
  (∀ a b, U a → R1 a b → R2 a b ∧ U b) →
  ∀ x y, U x → rtc R1 x y → rtc R2 x y.
Proof.
  intros H x y Hx Hr. induction Hr as [|a b c Hab _ IH]; [done|].
  destruct (H a b Hx Hab) as [H2 Hb]. eapply rtc_l; [exact H2|]. by apply IH.
Qed.


Section Equivalence.
Context {Geo : Type}.
Variable turf_booleanOverlap : Geo → Geo → bool.
Variable turf_buffer : GeoJSON Geo → Q → GeoJSON Geo.
Variable turf_area : GeoJSON Geo → Q.
Implicit Types (s : Store) (g : gmap Z (gset Z)) (c : gmap Z Q).
Implicit Types (G : list (Layer Geo)) (l o : Layer Geo) (entity : MapEntity Geo).

#[local] Abbreviation discover := (getOverlappingLayerIds turf_booleanOverlap turf_buffer).
#[local] Abbreviation totalArea := (fastOverlap_totalArea turf_booleanOverlap turf_buffer turf_area).
#[local] Abbreviation callback := (fastOverlap_callback turf_booleanOverlap turf_buffer turf_area).
#[local] Abbreviation naiveTotal := (naive_totalArea turf_booleanOverlap turf_buffer turf_area).
#[local] Abbreviation naiveCallback :=
  (isBufferOverlappingRecursive_callback turf_booleanOverlap turf_buffer turf_area).
#[local] Abbreviation nsucc := (naiveSucc turf_booleanOverlap turf_buffer).
#[local] Abbreviation narea := (naiveArea turf_area).
#[local] Abbreviation in_sync := (graph_in_sync turf_booleanOverlap turf_buffer).









End Equivalence.

Section MaintenanceTheorems.
Context {Geo : Type}.
Variable turf_booleanOverlap : Geo → Geo → bool.
Variable turf_buffer : GeoJSON Geo → Q → GeoJSON Geo.
Variable turf_area : GeoJSON Geo → Q.
Implicit Types (s : Store) (g : gmap Z (gset Z)) (c : gmap Z Q).
Implicit Types (G : list (Layer Geo)) (l o : Layer Geo) (entity : MapEntity Geo).

#[local] Abbreviation discover := (getOverlappingLayerIds turf_booleanOverlap turf_buffer).
#[local] Abbreviation callback := (fastOverlap_callback turf_booleanOverlap turf_buffer turf_area).

(** X1. [deleteLayerFromCache] never throws; afterwards the id has no cache
    entry, no graph entry and is in no neighbour set, and every other id
    keeps its cache entry and its neighbours other than the id. *)
Theorem deleteLayerFromCache_purges x s :
  ∃ s', deleteLayerFromCache x s = (s', Normal tt) ∧
    purged x s' ∧
    ∀ k, k ≠ x →
      areaCache s' !! k = areaCache s !! k ∧
      layersGraph s' !! k = (λ X, X ∖ {[x]}) <$> layersGraph s !! k.
Proof.
  eexists. split; [apply deleteLayerFromCache_spec|].
  unfold purged. cbn [layersGraph areaCache].
  split; [split_and!|].
  - apply lookup_delete_eq.
  - by rewrite lookup_fmap, lookup_delete_eq.
  - intros k X. rewrite lookup_fmap.
    destruct (delete x (layersGraph s) !! k) as [X0|]; [|done].
    intros [= <-]. set_solver.
  - intros k Hk. by rewrite lookup_fmap, !lookup_delete_ne.
Qed.

(** X2. The garbage collection never throws, changes nothing when every
    graph key is a layer of the group, and collects along the graph keys
    only: an id without a graph entry keeps its cache entry even when its
    layer is gone. *)
Theorem deleteFromAreaCache_edges G s :
  (deleteFromAreaCache G s).2 = Normal tt ∧
  ((∀ k, k ∈ dom (layersGraph s) → is_Some (getLayer G k)) →
     deleteFromAreaCache G s = (s, Normal tt)) ∧
  (∀ x, layersGraph s !! x = None →
     areaCache (deleteFromAreaCache G s).1 !! x = areaCache s !! x).
Proof.
  rewrite deleteFromAreaCache_spec. cbn [fst snd layersGraph areaCache].
  split_and!; [done| |].
  - intros Hlive.
    assert (deadKeys G (layersGraph s) = ∅) as ->.
    { apply set_eq. intros k. rewrite elem_of_deadKeys, <-getLayer_is_Some.
      split; [|set_solver]. intros [Hk Hn]. destruct (Hn (Hlive k Hk)). }
    f_equal. destruct s as [g c]. cbn [layersGraph areaCache]. f_equal.
    + apply map_eq. intros k. rewrite lookup_purgeGraph, decide_False by set_solver.
      destruct (g !! k) as [X|]; simpl; [|done]. f_equal. set_solver.
    + apply map_eq. intros k. by rewrite lookup_filter_keys, decide_False by set_solver.
  - intros x Hx. rewrite lookup_filter_keys, decide_False; [done|].
    rewrite elem_of_deadKeys. intros [Hd _]. by apply not_elem_of_dom in Hx.
Qed.

(** Collecting twice is collecting once. *)
Lemma gcStore_idem G s : gcStore G (gcStore G s) = gcStore G s.
Proof.
  assert (deadKeys G (layersGraph (gcStore G s)) = ∅) as Hd.
  { apply set_eq. intros k. rewrite elem_of_deadKeys. cbn [gcStore layersGraph].
    rewrite dom_purgeGraph, elem_of_difference, elem_of_deadKeys. set_solver. }
  unfold gcStore at 1. rewrite Hd. destruct (gcStore G s) as [g c].
  cbn [layersGraph areaCache]. f_equal.
  - apply map_eq. intros k. rewrite lookup_purgeGraph, decide_False by set_solver.
    destruct (g !! k) as [X|]; simpl; [|done]. f_equal. set_solver.
  - apply map_eq. intros k. by rewrite lookup_filter_keys, decide_False by set_solver.
Qed.

(** X3. On a symmetric graph the incremental edge diff never throws and
    leaves exactly the graph obtained by discarding all edges of the layer
    and inserting the edges to the new neighbour set; the cache is not
    touched. *)
Theorem edge_diff_is_replacement (E : Z) (N2 : gset Z) s :
  graph_symmetric (layersGraph s) →
  updateLayerGraph E N2 true s
    = (mkStore (replaceWholesale E N2 (layersGraph s)) (areaCache s), Normal tt) ∧
  graph_symmetric (replaceWholesale E N2 (layersGraph s)) ∧
  neighbours (replaceWholesale E N2 (layersGraph s)) E = N2.
Proof.
  intros Hsym. split_and!.
  - by apply updateLayerGraph_replace.
  - by apply graph_symmetric_replace.
  - by rewrite neighbours_replaceWholesale, decide_True.
Qed.

(** X13. Called without deletion (as [runOneTimeUpdateGraph] does),
    [updateLayerGraph] never throws and never removes an edge: the set of the
    layer becomes the union of its old set and the new neighbours, and each
    new neighbour gains the layer. *)
Theorem updateLayerGraph_add_only (E : Z) (N : gset Z) s :
  ∃ g', updateLayerGraph E N false s = (mkStore g' (areaCache s), Normal tt) ∧
    neighbours g' E = neighbours (layersGraph s) E ∪ N ∧
    (∀ k, k ≠ E →
       neighbours g' k =
         neighbours (layersGraph s) k ∪
         (if decide (k ∈ N ∖ neighbours (layersGraph s) E) then {[E]} else ∅)) ∧
    (∀ k, is_Some (layersGraph s !! k) → is_Some (g' !! k)).
Proof.
  set (prev := neighbours (layersGraph s) E).
  set (s0 := mkStore (<[E := prev]> (layersGraph s)) (areaCache s)).
  destruct (createLoop_spec E (elements (filter (λ id, id ∉ prev) N)) s0)
    as (g2 & Hrun2 & Hg2).
  { cbn [s0 layersGraph]. rewrite lookup_insert_eq. eauto. }
  exists g2. split.
  { unfold updateLayerGraph. rewrite M_bind_unfold, ensureEntry_spec. mrun.
    rewrite lookup_insert_eq. cbn [from_option]. mrun. exact Hrun2. }
  assert (filter (λ id, id ∉ prev) N = N ∖ prev) as Hf2.
  { apply set_eq. intros y. rewrite elem_of_filter. set_solver. }
  assert (∀ X : gset Z, list_to_set (elements X) = X) as Hls.
  { intros X. apply set_eq. intros y. by rewrite elem_of_list_to_set, elem_of_elements. }
  assert (∀ k, neighbours g2 k =
               addEdges E (N ∖ prev) k (neighbours (<[E := prev]> (layersGraph s)) k)) as Hnb.
  { intros k. unfold neighbours at 1. rewrite Hg2, Hf2, Hls. cbn [s0 layersGraph].
    destruct (decide (k ∈ elements (N ∖ prev))) as [Hin|Hnin]; [done|].
    unfold neighbours.
    destruct (<[E:=prev]> (layersGraph s) !! k) as [X|] eqn:HX; [done|].
    cbn [fmap option_fmap option_map default]. rewrite elem_of_elements in Hnin.
    unfold addEdges. rewrite decide_False by done.
    destruct (decide (k = E)) as [->|]; [by rewrite lookup_insert_eq in HX|set_solver]. }
  split_and!.
  - rewrite Hnb. unfold neighbours at 1. rewrite lookup_insert_eq. cbn [default].
    unfold addEdges. rewrite (decide_True (P := E = E)) by done.
    apply set_eq. intros y. case_decide; destruct (decide (y ∈ prev)); set_solver.
  - intros k Hk. rewrite Hnb. unfold neighbours at 1. rewrite lookup_insert_ne by done.
    fold (neighbours (layersGraph s) k). unfold addEdges.
    rewrite (decide_False (P := k = E)) by done. set_solver.
  - intros k [X HX]. rewrite Hg2. cbn [s0 layersGraph].
    case_decide; [eauto|].
    destruct (decide (E = k)) as [->|]; [by rewrite lookup_insert_eq|].
    by rewrite lookup_insert_ne, HX by done.
Qed.

Lemma deleteLoop_dangling (E d : Z) ds : ∀ s,
  is_Some (layersGraph s !! E) → layersGraph s !! d = None → d ∈ ds →
  (forEach ds (λ id, setDelete id E;; setDelete E id) s).2 = Throw TypeError.
Proof.
  induction ds as [|h ds IH]; intros s [XE HXE] Hd Hin; [set_solver|].
  cbn [forEach]. rewrite run_assoc, M_bind_unfold.
  destruct (layersGraph s !! h) as [Xh|] eqn:Hh.
  2:{ by rewrite (setDelete_None _ _ _ Hh). }
  rewrite (setDelete_Some _ _ _ _ Hh).
  assert (h ≠ d) as Hhd by congruence.
  assert (E ≠ d) as HEd by congruence.
  set (s1 := mkStore (<[h := Xh ∖ {[E]}]> (layersGraph s)) (areaCache s)).
  assert (is_Some (layersGraph s1 !! E)) as [XE1 HXE1].
  { cbn [s1 layersGraph]. destruct (decide (h = E)) as [->|];
      [rewrite lookup_insert_eq|rewrite lookup_insert_ne]; eauto. }
  rewrite M_bind_unfold, (setDelete_Some _ _ _ _ HXE1).
  apply IH.
  - cbn [layersGraph]. rewrite lookup_insert_eq. eauto.
  - cbn [s1 layersGraph]. by rewrite !lookup_insert_ne.
  - set_solver.
Qed.

(** X14. When an id recorded as a neighbour of the layer has no entry of
    its own and is not a neighbour any more, the edge diff throws a
    TypeError. *)
Theorem edge_diff_dangling_neighbour (E d : Z) (N : gset Z) s :
  d ∈ neighbours (layersGraph s) E → layersGraph s !! d = None → d ∉ N →
  (updateLayerGraph E N true s).2 = Throw TypeError.
Proof.
  intros Hd Hnone HdN.
  assert (E ≠ d) as HEd.
  { intros ->. unfold neighbours in Hd. rewrite Hnone in Hd. set_solver. }
  unfold updateLayerGraph. rewrite M_bind_unfold, ensureEntry_spec. mrun.
  rewrite lookup_insert_eq. cbn [from_option]. mrun.
  rewrite M_bind_unfold.
  match goal with |- context [forEach ?ds ?body ?st] =>
    pose proof (deleteLoop_dangling E d ds st) as Hloop end.
  cbn [layersGraph] in Hloop. rewrite lookup_insert_eq, lookup_insert_ne in Hloop by done.
  specialize (Hloop ltac:(eauto) Hnone).
  match type of Hloop with ?P → _ => assert P as Hin end.
  { apply elem_of_elements, elem_of_filter. done. }
  specialize (Hloop Hin).
  match goal with |- context [forEach ?ds ?body ?st] =>
    destruct (forEach ds body st) as [s' r] end.
  cbn [snd] in Hloop. by subst r.
Qed.

(** X15. [getAreaFromCache] memoises: a miss on a layer of the group
    stores Turf's area and returns it, and from then on the call returns
    this area and leaves the store alone whatever the group holds (the layer
    changed or gone); a miss on an id without a layer throws and stores
    nothing. *)
Theorem getAreaFromCache_memoises (id : Z) G s :
  areaCache s !! id = None →
  match getLayer G id with
  | Some l =>
      ∃ s1, getAreaFromCache turf_area id G s = (s1, Normal (turf_area (toGeoJSON l))) ∧
        layersGraph s1 = layersGraph s ∧
        ∀ G', getAreaFromCache turf_area id G' s1 = (s1, Normal (turf_area (toGeoJSON l)))
  | None => getAreaFromCache turf_area id G s = (s, Throw (Error "Layer not found"))
  end.
Proof.
  intros Hc. destruct (getLayer G id) as [l|] eqn:Hl.
  - eexists. split; [by apply getAreaFromCache_miss|]. split; [done|].
    intros G'. apply getAreaFromCache_hit. cbn [areaCache]. apply lookup_insert_eq.
  - by apply getAreaFromCache_gone.
Qed.

End MaintenanceTheorems.

Section DiscoveryTheorems.
Context {Geo : Type}.
Variable turf_booleanOverlap : Geo → Geo → bool.
Variable turf_buffer : GeoJSON Geo → Q → GeoJSON Geo.
Variable turf_area : GeoJSON Geo → Q.
Implicit Types (s : Store) (g : gmap Z (gset Z)) (c : gmap Z Q).
Implicit Types (G : list (Layer Geo)) (l o : Layer Geo) (entity : MapEntity Geo).

#[local] Abbreviation discover := (getOverlappingLayerIds turf_booleanOverlap turf_buffer).
#[local] Abbreviation callback := (fastOverlap_callback turf_booleanOverlap turf_buffer turf_area).
#[local] Abbreviation naive := (_getTotalAreaOfOverlappingEntities turf_booleanOverlap turf_buffer turf_area).

Lemma overlappingLoop_app l buffer pre rest : ∀ acc,
  overlappingLoop turf_booleanOverlap l buffer (pre ++ rest) acc =
    overlappingLoop turf_booleanOverlap l buffer pre acc ≫=
      overlappingLoop turf_booleanOverlap l buffer rest.
Proof.
  induction pre as [|o pre IH]; intros acc; [done|].
  cbn [app overlappingLoop]. destruct (_compareLayers l o); [apply IH|].
  destruct (getLayerPolygon o) as [p|e|]; cbn [mbind completion_bind]; [|done|done].
  destruct (features0 buffer) as [b|e|]; cbn [mbind completion_bind]; [|done|done].
  destruct (booleanOverlap turf_booleanOverlap b p) as [r|e|];
    cbn [mbind completion_bind]; [|done|done].
  apply IH.
Qed.

(** Discovery consults a layer only through its id and its polygon. *)
Lemma overlappingLoop_ext l buffer others others' : ∀ acc,
  Forall2 (λ o o', _leaflet_id o = _leaflet_id o' ∧
                   getLayerPolygon o = getLayerPolygon o') others others' →
  overlappingLoop turf_booleanOverlap l buffer others acc =
  overlappingLoop turf_booleanOverlap l buffer others' acc.
Proof.
  intros acc HF. revert acc.
  induction HF as [|o o' others others' [Hid Hp] _ IH]; intros acc; [done|].
  cbn [overlappingLoop]. unfold _compareLayers. rewrite Hid, Hp.
  case_bool_decide; [apply IH|].
  destruct (getLayerPolygon o') as [p|e|]; cbn [mbind completion_bind]; [|done|done].
  destruct (features0 buffer) as [b|e|]; cbn [mbind completion_bind]; [|done|done].
  destruct (booleanOverlap turf_booleanOverlap b p) as [r|e|];
    cbn [mbind completion_bind]; [|done|done].
  apply IH.
Qed.

(** X16. Neighbour discovery looks at the first feature of a feature
    collection only: replacing a layer of the group by one with the same id
    and the same first feature, whatever its other features, changes
    nothing in what discovery returns. *)
Theorem discovery_first_feature_only l pre post (id : Z) (f : Geo) (fs fs' : list Geo)
    (n n' : option string) :
  getOverlappingLayerIds turf_booleanOverlap turf_buffer l
    (pre ++ mkLayer id (FeatureCollection (f :: fs)) n :: post)
  = getOverlappingLayerIds turf_booleanOverlap turf_buffer l
      (pre ++ mkLayer id (FeatureCollection (f :: fs')) n' :: post).
Proof.
  unfold getOverlappingLayerIds. apply overlappingLoop_ext.
  apply Forall2_app; [by apply Forall_Forall2_diag, Forall_true|].
  constructor; [done|]. by apply Forall_Forall2_diag, Forall_true.
Qed.

(** X17. A layer whose GeoJSON is neither a feature nor a feature
    collection, reached by discovery after layers that raise nothing, makes
    the evaluation throw "Unsupported geometry type": the exception reaches
    the caller of [checkRule], the rule keeps all its fields, and the store
    is the garbage-collected one, with no edge changed. *)
Theorem unsupported_geometry_aborts G pre o post entity s ty N0 sev sm m :
  store_inv s →
  is_Some (sublayerName (layer entity)) → namesReadable G = true →
  G = pre ++ o :: post →
  discover (layer entity) pre = Normal N0 →
  toGeoJSON o = OtherGeoJSON ty → _leaflet_id o ≠ _leaflet_id (layer entity) →
  discover (layer entity) G = Throw (Error "Unsupported geometry type") ∧
  checkRule (fastOverlap turf_booleanOverlap turf_buffer turf_area G sev sm m) entity s
    = (gcStore G s, Throw (Error "Unsupported geometry type")).
Proof.
  intros Hinv [n Hn] Hnames -> Hpre Hty Hid.
  assert (discover (layer entity) (pre ++ o :: post)
          = Throw (Error "Unsupported geometry type")) as Hdisc.
  { unfold getOverlappingLayerIds in *. rewrite overlappingLoop_app, Hpre.
    cbn [mbind completion_bind overlappingLoop]. unfold _compareLayers.
    rewrite bool_decide_eq_false_2 by congruence.
    unfold getLayerPolygon. by rewrite Hty. }
  split; [done|].
  apply checkRule_throw. cbn [fastOverlap newRule _callback].
  rewrite fastOverlap_callback_run, fastOverlap_totalArea_run by apply Hinv.
  by rewrite Hn, Hnames, Hdisc.
Qed.



End DiscoveryTheorems.

Section DecisionTheorems.
Context {Geo : Type}.
Implicit Types (r : Rule Geo) (entity : MapEntity Geo) (s : Store).

Lemma Qgtb_true (x y : Q) : Qgtb x y = true ↔ (y < x)%Q.
Proof.
  unfold Qgtb. rewrite negb_true_iff, <-not_true_iff_false, Qle_bool_iff.
  split; [apply Qnot_le_lt|apply Qlt_not_le].
Qed.

(** X19. Checking a rule whose predicate answers with the cluster decision
    on a total [t]: above 1250 the rule is triggered, reports its configured
    severity and its short message becomes the text with the rounded total;
    at 1250 or below it is not triggered, reports severity 0, and keeps
    whatever short message it had.  The long message is never changed. *)
Theorem checkRule_cluster_decision r entity s s' (t : Q) :
  _callback r entity s = (s', Normal (clusterDecision t)) →
  ∃ r', checkRule r entity s = (s', Normal r') ∧
    message r' = message r ∧
    ((1250 < t)%Q →
       triggered r' = true ∧ severity r' = _severity r ∧
       shortMessage r' = "Cluster too big: " +:+ pretty (Math_round t) +:+ "m²") ∧
    ((t <= 1250)%Q →
       triggered r' = false ∧ severity r' = 0 ∧ shortMessage r' = shortMessage r).
Proof.
  intros Hcb. rewrite checkRule_unfold, Hcb. eexists. split; [done|].
  unfold triggered, severity, clusterDecision. cbn [_triggered _severity message shortMessage].
  fold MAX_CLUSTER_SIZE.
  destruct (Qgtb t MAX_CLUSTER_SIZE) eqn:Hgt; cbn [res_triggered res_message res_shortMessage].
  - split_and!; [done|done|].
    intros Hle. apply Qgtb_true in Hgt. exfalso. apply (Qlt_not_le _ _ Hgt). exact Hle.
  - split_and!; [done| |done].
    intros Hlt. apply Qgtb_true in Hlt.
    change (Qgtb t MAX_CLUSTER_SIZE = true) in Hlt. congruence.
Qed.

End DecisionTheorems.

Section CatalogFacts.
Context {Geo : Type}.
Variable turf_booleanOverlap : Geo → Geo → bool.
Variable turf_booleanContains : Geo → Geo → bool.
Variable turf_booleanOverlap_other : Geo → string → bool.
Variable turf_booleanContains_other : string → Geo → bool.
Variable entity_toGeoJSON : MapEntity Geo → Geo.
Implicit Types (G : list (Layer Geo)) (l : Layer Geo) (entity : MapEntity Geo) (s : Store).








End CatalogFacts.

Section SoundFacts.
Context {Geo : Type}.
Variable turf_booleanOverlap : Geo → Geo → bool.
Variable turf_booleanContains : Geo → Geo → bool.
Variable turf_booleanOverlap_other : Geo → string → bool.
Variable turf_booleanContains_other : string → Geo → bool.
Variable featureType : Geo → string.
Implicit Types (G : list (Layer Geo)) (l : Layer Geo) (a : Q).

#[local] Abbreviation sloop :=
  (soundLoop turf_booleanOverlap turf_booleanContains turf_booleanOverlap_other
     turf_booleanContains_other featureType).
#[local] Abbreviation scallback :=
  (soundCallback turf_booleanOverlap turf_booleanContains turf_booleanOverlap_other
     turf_booleanContains_other featureType).
#[local] Abbreviation sfeatures :=
  (soundFeaturesLoop turf_booleanOverlap turf_booleanContains featureType).








Variable entity_toGeoJSON : MapEntity Geo → Geo.
Variable entity_amplifiedSound : MapEntity Geo → option Q.


End SoundFacts.

Section RepositoryFacts.
Variable Ent : Type.
Variable newMapEntity : EntityDTO → Ent.
Variable revisionOf : Ent → Z.
Implicit Types (r : Repository Ent) (m latest fetched : gmap Z Ent) (id : Z).

Lemma elem_of_keysInOrder m id : id ∈ keysInOrder Ent m ↔ is_Some (m !! id).
Proof.
  unfold keysInOrder. rewrite merge_sort_Permutation, elem_of_elements. apply elem_of_dom.
Qed.

Lemma NoDup_keysInOrder m : NoDup (keysInOrder Ent m).
Proof. unfold keysInOrder. rewrite merge_sort_Permutation. apply NoDup_elements. Qed.

(** The loop over the fetched ids, in closed form. *)
Lemma reloadLoop_spec fetched ids : ∀ latest added updated,
  NoDup ids → (∀ id, id ∈ ids → is_Some (fetched !! id)) →
  ∃ latest' added' updated',
    foldl (reloadStep Ent revisionOf fetched) (latest, added, updated) ids
      = (latest', added ++ added', updated ++ updated') ∧
    (∀ id, latest' !! id =
       if decide (id ∈ ids) then
         match fetched !! id, latest !! id with
         | Some f, Some old =>
             if bool_decide (revisionOf old < revisionOf f) then Some f else Some old
         | Some f, None => Some f
         | None, o => o
         end
       else latest !! id) ∧
    (∀ id, id ∈ added' ↔ id ∈ ids ∧ latest !! id = None) ∧
    (∀ id, id ∈ updated' ↔
       id ∈ ids ∧ ∃ f old, fetched !! id = Some f ∧ latest !! id = Some old ∧
                           revisionOf old < revisionOf f).
Proof.
  induction ids as [|i ids IH]; intros latest added updated Hnd Hin.
  - exists latest, [], []. rewrite !app_nil_r. split_and!; [done|done|set_solver|set_solver].
  - apply NoDup_cons in Hnd as [Hi Hnd].
    destruct (Hin i) as [f Hf]; [set_solver|].
    assert (∀ id, id ∈ ids → is_Some (fetched !! id)) as Hin' by (intros; apply Hin; set_solver).
    cbn [foldl]. unfold reloadStep at 2. rewrite Hf.
    destruct (latest !! i) as [old|] eqn:Hold; [case_bool_decide as Hrev|].
    + destruct (IH (<[i := f]> latest) added (updated ++ [i]) Hnd Hin')
        as (l' & a' & u' & -> & Hl & Ha & Hu).
      exists l', a', (i :: u'). rewrite <-!app_assoc. split_and!; [done| | |].
      * intros id. rewrite Hl. destruct (decide (id = i)) as [->|Hne].
        -- rewrite decide_False, (decide_True (P := i ∈ i :: ids)) by set_solver.
           rewrite lookup_insert_eq, Hf, Hold. by rewrite bool_decide_eq_true_2.
        -- rewrite lookup_insert_ne by done.
           destruct (decide (id ∈ ids)); [rewrite decide_True by set_solver|rewrite decide_False by set_solver]; done.
      * intros id. rewrite Ha. destruct (decide (id = i)) as [->|Hne].
        -- rewrite lookup_insert_eq. split; [set_solver|]. intros [_ ?]. congruence.
        -- rewrite lookup_insert_ne by done. rewrite ?elem_of_cons; clear -Hne; intuition congruence.
      * intros id. rewrite elem_of_cons, Hu. destruct (decide (id = i)) as [->|Hne].
        -- split; [|by left]. intros _. split; [set_solver|]. by exists f, old.
        -- rewrite lookup_insert_ne by done. rewrite ?elem_of_cons; clear -Hne; intuition congruence.
    + destruct (IH latest added updated Hnd Hin') as (l' & a' & u' & -> & Hl & Ha & Hu).
      exists l', a', u'. split_and!; [done| | |].
      * intros id. rewrite Hl. destruct (decide (id = i)) as [->|Hne].
        -- rewrite decide_False, (decide_True (P := i ∈ i :: ids)) by set_solver.
           rewrite Hf, Hold. by rewrite bool_decide_eq_false_2.
        -- destruct (decide (id ∈ ids)); [rewrite decide_True by set_solver|rewrite decide_False by set_solver]; done.
      * intros id. rewrite Ha. split; [rewrite elem_of_cons; naive_solver|].
        intros [[->|?]%elem_of_cons ?]; [congruence|done].
      * intros id. rewrite Hu. split; [rewrite elem_of_cons; naive_solver|].
        intros [[->|?]%elem_of_cons (f' & old' & ? & ? & ?)]; [|by split; [|exists f', old']].
        exfalso. assert (f' = f) as -> by congruence. assert (old' = old) as -> by congruence. lia.
    + destruct (IH (<[i := f]> latest) (added ++ [i]) updated Hnd Hin')
        as (l' & a' & u' & -> & Hl & Ha & Hu).
      exists l', (i :: a'), u'. rewrite <-!app_assoc. split_and!; [done| | |].
      * intros id. rewrite Hl. destruct (decide (id = i)) as [->|Hne].
        -- rewrite decide_False, (decide_True (P := i ∈ i :: ids)) by set_solver.
           by rewrite lookup_insert_eq, Hf, Hold.
        -- rewrite lookup_insert_ne by done.
           destruct (decide (id ∈ ids)); [rewrite decide_True by set_solver|rewrite decide_False by set_solver]; done.
      * intros id. rewrite elem_of_cons, Ha. destruct (decide (id = i)) as [->|Hne].
        -- split; [|by left]. intros _. split; [set_solver|done].
        -- rewrite lookup_insert_ne by done. rewrite ?elem_of_cons; clear -Hne; intuition congruence.
      * intros id. rewrite Hu. destruct (decide (id = i)) as [->|Hne].
        -- rewrite lookup_insert_eq. split; [set_solver|].
           intros [_ (f' & old' & ? & ? & ?)]. congruence.
        -- rewrite lookup_insert_ne by done. rewrite ?elem_of_cons; clear -Hne; intuition congruence.
Qed.

Lemma collect_snoc c dtos d :
  collect Ent newMapEntity c (dtos ++ [d]) =
    if outsideConstraints c d then collect Ent newMapEntity c dtos
    else <[dto_id d := newMapEntity d]> (collect Ent newMapEntity c dtos).
Proof. unfold collect. by rewrite foldl_app. Qed.

(** The entity collected for an id is built from the last DTO of the
    response that carries the id and lies within the constraints. *)
Lemma collect_lookup c dtos id :
  collect Ent newMapEntity c dtos !! id =
    newMapEntity <$>
      last (filter (λ d, dto_id d = id ∧ outsideConstraints c d = false) dtos).
Proof.
  induction dtos as [|d dtos IH] using rev_ind; [done|].
  rewrite collect_snoc, filter_app, filter_cons, filter_nil.
  destruct (outsideConstraints c d) eqn:Hout.
  - rewrite decide_False by (intros [_ ?]; congruence). by rewrite app_nil_r.
  - destruct (decide (dto_id d = id)) as [<-|Hne].
    + rewrite decide_True by done. by rewrite lookup_insert_eq, last_snoc.
    + rewrite decide_False by (intros [? _]; congruence).
      by rewrite lookup_insert_ne, app_nil_r.
Qed.

(** [reload] in closed form. *)
Lemma reload_spec dtos r :
  ∃ latest' added updated,
    reload Ent newMapEntity revisionOf dtos r =
      (mkRepository latest' (_entityConstraints r),
       mkChanges
         (filter (λ id, collect Ent newMapEntity (_entityConstraints r) dtos !! id = None)
            (keysInOrder Ent (_latestRevisions r)))
         added updated) ∧
    (∀ id, latest' !! id =
       match collect Ent newMapEntity (_entityConstraints r) dtos !! id,
             _latestRevisions r !! id with
       | Some f, Some old =>
           if bool_decide (revisionOf old < revisionOf f) then Some f else Some old
       | Some f, None => Some f
       | None, o => o
       end) ∧
    (∀ id, id ∈ added ↔
       is_Some (collect Ent newMapEntity (_entityConstraints r) dtos !! id) ∧
       _latestRevisions r !! id = None) ∧
    (∀ id, id ∈ updated ↔
       ∃ f old, collect Ent newMapEntity (_entityConstraints r) dtos !! id = Some f ∧
                _latestRevisions r !! id = Some old ∧
                revisionOf old < revisionOf f).
Proof.
  unfold reload.
  destruct (reloadLoop_spec (collect Ent newMapEntity (_entityConstraints r) dtos)
              (keysInOrder Ent (collect Ent newMapEntity (_entityConstraints r) dtos))
              (_latestRevisions r) [] [])
    as (l' & a' & u' & Hrun & Hl & Ha & Hu).
  { apply NoDup_keysInOrder. }
  { intros id. by rewrite elem_of_keysInOrder. }
  rewrite Hrun. cbn [app]. exists l', a', u'. split_and!; [done| | |].
  - intros id. rewrite Hl.
    destruct (collect Ent newMapEntity (_entityConstraints r) dtos !! id) as [f|] eqn:Hf.
    + rewrite decide_True; [done|]. apply elem_of_keysInOrder. by rewrite Hf.
    + rewrite decide_False; [done|]. rewrite elem_of_keysInOrder, Hf. by intros [? ?].
  - intros id. by rewrite Ha, elem_of_keysInOrder.
  - intros id. rewrite Hu, elem_of_keysInOrder. split; [by intros [_ ?]|].
    intros (f & old & Hf & ?). split; [by rewrite Hf|by exists f, old].
Qed.

(** X23. What [reload] reports, for every id: it is reported deleted
    exactly when it was stored and the response holds no entity for it
    within the constraints; added exactly when it was not stored and the
    response holds one; updated exactly when it was stored and the response
    holds a strictly newer revision. *)
Theorem reload_classification dtos r id :
  let fetched := collect Ent newMapEntity (_entityConstraints r) dtos in
  let changes := (reload Ent newMapEntity revisionOf dtos r).2 in
  (id ∈ refreshedDeleted changes ↔
     is_Some (_latestRevisions r !! id) ∧ fetched !! id = None) ∧
  (id ∈ refreshedAdded changes ↔
     _latestRevisions r !! id = None ∧ is_Some (fetched !! id)) ∧
  (id ∈ refreshedUpdated changes ↔
     ∃ old f, _latestRevisions r !! id = Some old ∧ fetched !! id = Some f ∧
              revisionOf old < revisionOf f).
Proof.
  cbv zeta. destruct (reload_spec dtos r) as (l' & a' & u' & -> & _ & Ha & Hu).
  cbn [snd refreshedDeleted refreshedAdded refreshedUpdated]. split_and!.
  - rewrite list_elem_of_filter, elem_of_keysInOrder. tauto.
  - rewrite Ha. tauto.
  - rewrite Hu. split; intros (x & y & ? & ? & ?); by exists y, x.
Qed.

(** X24. [reload] never removes an entity: an id it reports as deleted was
    stored, and is still stored afterwards with the same entity (removing it
    is left to the caller, through [remove]). *)
Theorem reload_keeps_deleted dtos r id :
  id ∈ refreshedDeleted (reload Ent newMapEntity revisionOf dtos r).2 →
  is_Some (getEntityById Ent id r) ∧
  getEntityById Ent id (reload Ent newMapEntity revisionOf dtos r).1 = getEntityById Ent id r.
Proof.
  destruct (reload_spec dtos r) as (l' & a' & u' & -> & Hl & _ & _).
  cbn [fst snd refreshedDeleted]. unfold getEntityById. cbn [_latestRevisions].
  rewrite list_elem_of_filter, elem_of_keysInOrder. intros [Hnone Hsome].
  split; [done|]. by rewrite Hl, Hnone.
Qed.

(** X25. [reload] never lowers a revision: an entity stored before is
    stored afterwards with a revision at least as high. *)
Theorem reload_revisions_never_decrease dtos r id old :
  getEntityById Ent id r = Some old →
  ∃ new, getEntityById Ent id (reload Ent newMapEntity revisionOf dtos r).1 = Some new ∧
         revisionOf old <= revisionOf new.
Proof.
  destruct (reload_spec dtos r) as (l' & a' & u' & -> & Hl & _ & _).
  cbn [fst]. unfold getEntityById. cbn [_latestRevisions]. intros Hold.
  rewrite Hl, Hold.
  destruct (collect Ent newMapEntity (_entityConstraints r) dtos !! id) as [f|].
  - case_bool_decide; [exists f|exists old]; split; [done|lia|done|lia].
  - exists old. split; [done|lia].
Qed.

(** X26. Reloading again with the same response is quiet: the repository
    is unchanged, nothing is reported added and nothing updated. *)
Theorem reload_twice_is_quiet dtos r :
  let r1 := (reload Ent newMapEntity revisionOf dtos r).1 in
  (reload Ent newMapEntity revisionOf dtos r1).1 = r1 ∧
  refreshedAdded (reload Ent newMapEntity revisionOf dtos r1).2 = [] ∧
  refreshedUpdated (reload Ent newMapEntity revisionOf dtos r1).2 = [].
Proof.
  cbv zeta. destruct (reload_spec dtos r) as (l1 & a1 & u1 & -> & Hl1 & _ & _).
  cbn [fst].
  destruct (reload_spec dtos (mkRepository l1 (_entityConstraints r)))
    as (l2 & a2 & u2 & -> & Hl2 & Ha2 & Hu2).
  cbn [fst snd refreshedAdded refreshedUpdated _latestRevisions _entityConstraints] in *.
  split_and!.
  - f_equal. apply map_eq. intros id. rewrite Hl2, Hl1.
    destruct (collect Ent newMapEntity (_entityConstraints r) dtos !! id) as [f|];
      [|done].
    destruct (_latestRevisions r !! id) as [old|].
    + case_bool_decide; [by rewrite bool_decide_eq_false_2 by lia|].
      by rewrite bool_decide_eq_false_2.
    + by rewrite bool_decide_eq_false_2 by lia.
  - apply elem_of_nil_inv. intros id. rewrite Ha2, Hl1. intros [[f Hf] Hnone].
    rewrite Hf in Hnone. destruct (_latestRevisions r !! id); [|done].
    by case_bool_decide.
  - apply elem_of_nil_inv. intros id. rewrite Hu2.
    intros (f & old & Hf & Hold & Hlt). rewrite Hl1, Hf in Hold.
    destruct (_latestRevisions r !! id) as [old0|].
    + case_bool_decide; simplify_eq; lia.
    + simplify_eq. lia.
Qed.

(** X27. A failed request (the response is not [ok], so the list of DTOs
    is empty): [reload] reports every stored id as deleted and leaves the
    repository as it was, whereas [_update] empties it. *)
Theorem failed_response_reports_all_deleted r :
  reload Ent newMapEntity revisionOf [] r =
    (r, mkChanges (keysInOrder Ent (_latestRevisions r)) [] []) ∧
  _latestRevisions (_update Ent newMapEntity [] r) = ∅.
Proof.
  split; [|done]. destruct r as [stored c]. unfold reload. cbn [collect foldl _latestRevisions _entityConstraints].
  assert (keysInOrder Ent (∅ : gmap Z Ent) = []) as ->.
  { unfold keysInOrder. by rewrite dom_empty_L, elements_empty. }
  cbn [foldl]. do 2 f_equal.
  induction (keysInOrder Ent stored) as [|k ks IH]; [done|].
  rewrite filter_cons, decide_True by apply lookup_empty. by rewrite IH.
Qed.

(** X28. After [reload] and a [remove] of every id it reported as deleted,
    the repository stores exactly the ids for which the response holds an
    entity within the constraints. *)
Theorem reload_then_remove dtos r id :
  let res := reload Ent newMapEntity revisionOf dtos r in
  is_Some (getEntityById Ent id
             (foldr (removeEntity Ent) res.1 (refreshedDeleted res.2))) ↔
  is_Some (collect Ent newMapEntity (_entityConstraints r) dtos !! id).
Proof.
  cbv zeta. destruct (reload_spec dtos r) as (l' & a' & u' & -> & Hl & _ & _).
  cbn [fst snd refreshedDeleted].
  assert (∀ ds rep, getEntityById Ent id (foldr (removeEntity Ent) rep ds) =
            if decide (id ∈ ds) then None else getEntityById Ent id rep) as ->.
  { induction ds as [|d ds IH]; intros rep; [done|].
    cbn [foldr]. unfold getEntityById, removeEntity at 1. cbn [_latestRevisions].
    destruct (decide (id = d)) as [->|Hne].
    - rewrite lookup_delete_eq. by rewrite decide_True by set_solver.
    - rewrite lookup_delete_ne by done. unfold getEntityById in IH. rewrite IH.
      destruct (decide (id ∈ ds)); [by rewrite decide_True by set_solver|].
      by rewrite decide_False by set_solver. }
  unfold getEntityById. cbn [_latestRevisions]. rewrite Hl.
  destruct (collect Ent newMapEntity (_entityConstraints r) dtos !! id) as [f|] eqn:Hf.
  - rewrite decide_False.
    + destruct (_latestRevisions r !! id); [case_bool_decide|]; split; eauto.
    + rewrite list_elem_of_filter. intros [? _]. congruence.
  - destruct (_latestRevisions r !! id) as [old|] eqn:Hold.
    + rewrite decide_True; [split; by intros [? ?]|].
      rewrite list_elem_of_filter, elem_of_keysInOrder, Hold. eauto.
    + rewrite decide_False; [done|].
      rewrite list_elem_of_filter, elem_of_keysInOrder, Hold. by intros [_ [? ?]].
Qed.

(** X29. After [_update] the entity stored for an id is the one built
    from the last DTO of the response that carries the id and lies within
    the constraints, whatever the revisions of the DTOs; an id of which the
    response holds no such DTO is not stored. *)
Theorem update_last_in_range_wins dtos r id :
  getEntityById Ent id (_update Ent newMapEntity dtos r) =
    newMapEntity <$>
      last (filter (λ d, dto_id d = id ∧ outsideConstraints (_entityConstraints r) d = false)
              dtos).
Proof. apply collect_lookup. Qed.

End RepositoryFacts.

(** ** The properties at concrete scenes *)

Lemma reachable_graph_symmetric_witness :
  (∀ a b : Z, a ∈ neighbours (layersGraph Scene.afterCamps) b
              ↔ b ∈ neighbours (layersGraph Scene.afterCamps) a) ∧
  (∀ a b : Z, a ∈ neighbours (layersGraph Scene.afterCamps) b
              → is_Some (layersGraph Scene.afterCamps !! a)) ∧
  dom (areaCache Scene.afterCamps) ⊆ dom (layersGraph Scene.afterCamps).
Proof.
  apply (reachable_graph_symmetric Line.overlap Line.buffer Line.area Scene.afterCamps).
  do 2 apply reachable_eval. apply reachable_init.
Defined.

Lemma evaluation_terminates_witness :
  (Scene.callback Line.row Line.rowC Scene.afterCamps).2 ≠ OutOfFuel.
Proof.
  apply (evaluation_terminates Line.overlap Line.buffer Line.area Line.row
           (Line.entityOf Line.rowC) Scene.afterCamps).
  do 2 apply reachable_eval. apply reachable_init.
Defined.

Lemma evaluation_purges_absent_ids_witness :
  purged 3 (Scene.callback Line.camps Line.campA Scene.afterRow).1.
Proof.
  apply (evaluation_purges_absent_ids Line.overlap Line.buffer Line.area Line.camps
           (Line.entityOf Line.campA) Scene.afterRow 3).
  - apply (reachable_inv Line.overlap Line.buffer Line.area).
    apply reachable_eval, reachable_init.
  - by eexists.
  - apply (bool_decide_unpack _). vm_compute. exact I.
  - discriminate.
Defined.

Lemma evaluation_total_witness :
  ∃ s' t (cluster : gset Z),
    fastOverlap_totalArea Line.overlap Line.buffer Line.area Line.camps
      (Line.entityOf Line.campA) Scene.afterRow = (s', Normal t) ∧
    Scene.callback Line.camps Line.campA Scene.afterRow
      = (s', Normal (clusterDecision t)) ∧
    layersGraph s' =
      replaceWholesale 1 {[2]} (layersGraph (gcStore Line.camps Scene.afterRow)) ∧
    (∀ y, y ∈ cluster ↔ connected (layersGraph s') 1 y) ∧
    (t == sumOver (areaOf Line.area Line.camps
                     (areaCache (gcStore Line.camps Scene.afterRow))) cluster)%Q.
Proof.
  apply (evaluation_total Line.overlap Line.buffer Line.area Line.camps
           (Line.entityOf Line.campA) Scene.afterRow {[2]}).
  - apply (reachable_inv Line.overlap Line.buffer Line.area).
    apply reachable_eval, reachable_init.
  - by eexists.
  - reflexivity.
  - vm_compute. reflexivity.
  - by eexists.
Defined.

Lemma evaluation_absent_layer_witness :
  ∃ s', Scene.callback Line.camps Scene.stray emptyStore
          = (s', Throw (Error "Layer not found")) ∧
    layersGraph s' !! 9 = Some {[1; 2]}.
Proof.
  apply (evaluation_absent_layer Line.overlap Line.buffer Line.area Line.camps
           (Line.entityOf Scene.stray) emptyStore {[1; 2]}).
  - apply store_inv_empty.
  - by eexists.
  - reflexivity.
  - vm_compute. reflexivity.
  - reflexivity.
Defined.

Lemma traversal_total_witness :
  ∃ s' t v',
    _recursiveGetTotalArea Line.area 3 1 Line.camps ∅ Scene.afterCamps
      = (s', Normal (t, v')) ∧
    layersGraph s' = layersGraph Scene.afterCamps ∧
    (∀ y, y ∈ v' ↔ connected (layersGraph Scene.afterCamps) 1 y) ∧
    (t == sumOver (areaOf Line.area Line.camps (areaCache Scene.afterCamps)) v')%Q.
Proof.
  apply (traversal_total Line.area Line.camps {[1; 2]} Scene.afterCamps 1 3).
  - intros k [->%elem_of_singleton| ->%elem_of_singleton]%elem_of_union.
    + exists {[2]}. split; [vm_compute; reflexivity|].
      apply (bool_decide_unpack _). vm_compute. exact I.
    + exists {[1]}. split; [vm_compute; reflexivity|].
      apply (bool_decide_unpack _). vm_compute. exact I.
  - apply (bool_decide_unpack _). vm_compute. exact I.
  - vm_compute. lia.
  - intros y [->%elem_of_singleton| ->%elem_of_singleton]%elem_of_union;
      right; by eexists.
Defined.

Lemma cycle_total_witness :
  ∃ s' t,
    _recursiveGetTotalArea Line.area 4 2 Line.row ∅ Scene.triangle
      = (s', Normal (t, {[1; 2; 3]})) ∧
    (t == areaOf Line.area Line.row (areaCache Scene.triangle) 1
          + areaOf Line.area Line.row (areaCache Scene.triangle) 2
          + areaOf Line.area Line.row (areaCache Scene.triangle) 3)%Q.
Proof.
  apply (cycle_total Line.area Line.row Scene.triangle 1 2 3 2 4).
  - discriminate.
  - discriminate.
  - discriminate.
  - vm_compute. reflexivity.
  - vm_compute. reflexivity.
  - vm_compute. reflexivity.
  - intros y [[->%elem_of_singleton| ->%elem_of_singleton]%elem_of_union
             | ->%elem_of_singleton]%elem_of_union; right; by eexists.
  - apply (bool_decide_unpack _). vm_compute. exact I.
  - lia.
Defined.

Lemma naive_rule_total_witness :
  ∃ t (cluster : gset Z),
    naive_totalArea Line.overlap Line.buffer Line.area Line.camps
      (Line.entityOf Line.campA) = Normal t ∧
    (∀ y, y ∈ cluster ↔
       rtc (edge (naiveSucc Line.overlap Line.buffer Line.camps)) 1 y) ∧
    (t == sumOver (naiveArea Line.area Line.camps) cluster)%Q.
Proof.
  apply (naive_rule_total Line.overlap Line.buffer Line.area Line.camps
           (Line.entityOf Line.campA)).
  - apply (bool_decide_unpack _). vm_compute. exact I.
  - intros l [->|[->|[]%elem_of_nil]%elem_of_cons]%elem_of_cons;
      eexists; vm_compute; reflexivity.
  - apply elem_of_cons. by left.
Defined.


Lemma edge_diff_is_replacement_witness :
  updateLayerGraph 1 {[3]} true Scene.afterCamps
    = (mkStore (replaceWholesale 1 {[3]} (layersGraph Scene.afterCamps))
         (areaCache Scene.afterCamps), Normal tt) ∧
  graph_symmetric (replaceWholesale 1 {[3]} (layersGraph Scene.afterCamps)) ∧
  neighbours (replaceWholesale 1 {[3]} (layersGraph Scene.afterCamps)) 1 = {[3]}.
Proof.
  apply (edge_diff_is_replacement 1 {[3]} Scene.afterCamps).
  apply (reachable_inv Line.overlap Line.buffer Line.area).
  do 2 apply reachable_eval. apply reachable_init.
Defined.

Lemma edge_diff_dangling_neighbour_witness :
  (updateLayerGraph 1 ∅ true Scene.dangling).2 = Throw TypeError.
Proof.
  apply (edge_diff_dangling_neighbour 1 2 ∅ Scene.dangling).
  - apply (bool_decide_unpack _). vm_compute. exact I.
  - vm_compute. reflexivity.
  - apply (bool_decide_unpack _). vm_compute. exact I.
Defined.

Lemma getAreaFromCache_memoises_witness :
  match getLayer Line.camps 1 with
  | Some l =>
      ∃ s1, getAreaFromCache Line.area 1 Line.camps emptyStore
              = (s1, Normal (Line.area (toGeoJSON l))) ∧
        layersGraph s1 = layersGraph emptyStore ∧
        ∀ G', getAreaFromCache Line.area 1 G' s1 = (s1, Normal (Line.area (toGeoJSON l)))
  | None => getAreaFromCache Line.area 1 Line.camps emptyStore
              = (emptyStore, Throw (Error "Layer not found"))
  end.
Proof.
  apply (getAreaFromCache_memoises Line.area 1 Line.camps emptyStore).
  reflexivity.
Defined.

Lemma unsupported_geometry_aborts_witness :
  getOverlappingLayerIds Line.overlap Line.buffer Line.campA [Line.campA; Line.odd]
    = Throw (Error "Unsupported geometry type") ∧
  checkRule (fastOverlap Line.overlap Line.buffer Line.area [Line.campA; Line.odd]
               3 "yo" "yooo") (Line.entityOf Line.campA) Scene.afterCamps
    = (gcStore [Line.campA; Line.odd] Scene.afterCamps,
       Throw (Error "Unsupported geometry type")).
Proof.
  apply (unsupported_geometry_aborts Line.overlap Line.buffer Line.area
           [Line.campA; Line.odd] [Line.campA] Line.odd [] (Line.entityOf Line.campA)
           Scene.afterCamps "GeometryCollection" ∅ 3 "yo" "yooo").
  - apply (reachable_inv Line.overlap Line.buffer Line.area).
    do 2 apply reachable_eval. apply reachable_init.
  - by eexists.
  - reflexivity.
  - reflexivity.
  - vm_compute. reflexivity.
  - reflexivity.
  - discriminate.
Defined.

Lemma checkRule_cluster_decision_witness :
  ∃ r', checkRule Scene.campRule (Line.entityOf Line.campA) emptyStore
          = ((Scene.callback Line.camps Line.campA emptyStore).1, Normal r') ∧
    message r' = message Scene.campRule ∧
    ((1250 < 1300)%Q →
       triggered r' = true ∧ severity r' = _severity Scene.campRule ∧
       shortMessage r' = "Cluster too big: " +:+ pretty (Math_round 1300) +:+ "m²") ∧
    ((1300 <= 1250)%Q →
       triggered r' = false ∧ severity r' = 0 ∧
       shortMessage r' = shortMessage Scene.campRule).
Proof.
  apply (checkRule_cluster_decision Scene.campRule (Line.entityOf Line.campA) emptyStore
           (Scene.callback Line.camps Line.campA emptyStore).1 1300).
  vm_compute. reflexivity.
Defined.


Lemma reload_keeps_deleted_witness :
  is_Some (getEntityById EntityDTO 1 Scene.stored) ∧
  getEntityById EntityDTO 1
    (reload EntityDTO id dto_revision Scene.response Scene.stored).1
  = getEntityById EntityDTO 1 Scene.stored.
Proof.
  apply (reload_keeps_deleted EntityDTO id dto_revision Scene.response Scene.stored 1).
  apply (bool_decide_unpack _). vm_compute. exact I.
Defined.

Lemma reload_revisions_never_decrease_witness :
  ∃ new, getEntityById EntityDTO 2
           (reload EntityDTO id dto_revision Scene.response Scene.stored).1 = Some new ∧
         dto_revision (mkDTO 2 1 0) <= dto_revision new.
Proof.
  apply (reload_revisions_never_decrease EntityDTO id dto_revision Scene.response
           Scene.stored 2 (mkDTO 2 1 0)).
  vm_compute. reflexivity.
Defined.
